(** * rl_vrp: the DQN training core of [models/rl_process.py]

    A shallow embedding of the replay memory, the epsilon-greedy action
    selector, the temporal-difference optimisation step and the training
    loop, followed by the properties of the specification that were
    checked against it.

    Conventions of the embedding.
    - Python [int]s are [Z]; [%] and list indexing follow Python (the sign
      of [%] is that of the divisor, a negative index counts from the end).
    - A Python exception is a value [Raise e]; state written before the
      exception is raised stays written, so every stateful function has
      type [S -> result A * S].
    - Python [float]s used by the epsilon schedule are real numbers ([R]):
      [math.exp] is the real exponential and rounding is not modelled.
    - Entries of float tensors are exact rationals ([Q]); a state is a
      tensor of shape (1, F, N), written as its F rows of N entries, and a
      batch built by [torch.cat] is the list of its samples.
    - The network class, the optimiser and the environment are not part of
      this file of the repository: they are interfaces ([Net], [Env]). *)

From Stdlib Require Import ZArith List Bool Arith Lia Permutation.
From Stdlib Require Import QArith Reals Lra.
From Stdlib Require String.
Import ListNotations.

Close Scope Q_scope.
Close Scope R_scope.

Set Implicit Arguments.

(* ================================================================== *)
(** * Part I: the program                                              *)
(* ================================================================== *)

(** ** Python runtime *)

Inductive exn : Type :=
| IndexError
| ValueError
| TypeError
| ZeroDivisionError
| RuntimeError
| OutOfFuel.   (* not a Python exception: the [count()] loop was cut off *)

Inductive result (A : Type) : Type :=
| Ok (a : A)
| Raise (e : exn).

Arguments Ok {A} a.
Arguments Raise {A} e.

(** State that survives exceptions. *)
Definition StE (S A : Type) : Type := S -> result A * S.

Definition ret {S A : Type} (a : A) : StE S A := fun s => (Ok a, s).

Definition raise {S A : Type} (e : exn) : StE S A := fun s => (Raise e, s).

Definition bind {S A B : Type} (m : StE S A) (k : A -> StE S B) : StE S B :=
  fun s =>
    match m s with
    | (Ok a, s') => k a s'
    | (Raise e, s') => (Raise e, s')
    end.

Definition lift_result {S A : Type} (r : result A) : StE S A :=
  fun s => (r, s).

Declare Scope ste_scope.
Delimit Scope ste_scope with ste.
Notation "x <- m ;; k" := (bind m (fun x => k))
  (at level 61, m at next level, right associativity) : ste_scope.
Notation "' p <- m ;; k" := (bind m (fun x => let p := x in k))
  (at level 61, p pattern, m at next level, right associativity) : ste_scope.
Notation "m ;;; k" := (bind m (fun _ => k))
  (at level 61, right associativity) : ste_scope.

(** [a % b] on Python ints. *)
Definition py_mod (a b : Z) : result Z :=
  if (b =? 0)%Z then Raise ZeroDivisionError else Ok (a mod b)%Z.

(** [int(a / b)] on Python ints: true division, then truncation towards
    zero (the quotient is exact for operands below 2^53). *)
Definition py_int_truediv (a b : Z) : result Z :=
  if (b =? 0)%Z then Raise ZeroDivisionError else Ok (a ÷ b)%Z.

(** Position designated by a Python index in a list of length [n]. *)
Definition py_index (n : nat) (i : Z) : option nat :=
  if ((0 <=? i) && (i <? Z.of_nat n))%Z then Some (Z.to_nat i)
  else if ((- Z.of_nat n <=? i) && (i <? 0))%Z then Some (Z.to_nat (Z.of_nat n + i))
  else None.

Fixpoint list_set {A : Type} (l : list A) (i : nat) (x : A) : list A :=
  match l, i with
  | [], _ => []
  | _ :: t, O => x :: t
  | h :: t, S j => h :: list_set t j x
  end.

(** [l[i]] *)
Definition getitem {A : Type} (l : list A) (i : Z) : result A :=
  match py_index (length l) i with
  | Some k => match nth_error l k with
              | Some x => Ok x
              | None => Raise IndexError
              end
  | None => Raise IndexError
  end.

(** [l[i] = x] *)
Definition setitem {A : Type} (l : list A) (i : Z) (x : A) : result (list A) :=
  match py_index (length l) i with
  | Some k => Ok (list_set l k x)
  | None => Raise IndexError
  end.

(** ** The [random] module

    The generator is a cursor into an arbitrary sequence of raw draws. *)

Module random.

Record state : Type := mk { draws : nat -> Z; cursor : nat }.

Definition next (g : state) : Z * state :=
  (draws g (cursor g), mk (draws g) (S (cursor g))).

(** [random.random()]: a 53-bit integer scaled into [0, 1). *)
Definition random (g : state) : R * state :=
  let (r, g') := next g in
  ((IZR (r mod 2 ^ 53) / IZR (2 ^ 53))%R, g').

Definition randbelow (n : nat) (g : state) : nat * state :=
  let (r, g') := next g in
  (Z.to_nat (r mod Z.of_nat n), g').

(** [random.randrange(n)] *)
Definition randrange (n : Z) : StE state Z :=
  fun g =>
    if (n <=? 0)%Z then (Raise ValueError, g)
    else let (r, g') := next g in (Ok (r mod n)%Z, g').

(** The selection loop of [random.sample]: [pool] is the part of the
    population not selected yet; the selected entry is replaced by the
    last one, which then leaves the pool. *)
Fixpoint sample_pool {A : Type} (pool : list A) (k : nat) (g : state)
  : list A * state :=
  match k with
  | O => ([], g)
  | S k' =>
      let n := length pool in
      let (j, g1) := randbelow n g in
      match nth_error pool j, nth_error pool (n - 1) with
      | Some x, Some y =>
          let (rest, g2) :=
            sample_pool (firstn (n - 1) (list_set pool j y)) k' g1 in
          (x :: rest, g2)
      | _, _ => ([], g1)
      end
  end.

(** [random.sample(population, k)] *)
Definition sample {A : Type} (population : list A) (k : Z)
  : StE state (list A) :=
  fun g =>
    if ((0 <=? k) && (k <=? Z.of_nat (length population)))%Z
    then let (l, g') := sample_pool population (Z.to_nat k) g in (Ok l, g')
    else (Raise ValueError, g).

End random.

(** The last [k] elements of a list. *)
Definition lastn {A : Type} (k : nat) (l : list A) : list A :=
  skipn (length l - k) l.

(** ** [class ReplayMemory] *)

Module ReplayMemory.
Section WithTransition.

Variable T : Type.

(** A slot holds [None] between [append(None)] and the assignment. *)
Record t : Type := mk {
  capacity : Z;
  memory : list (option T);
  position : Z
}.

(** [__init__] *)
Definition init (capacity : Z) : t := mk capacity [] 0.

(** [__len__] *)
Definition len (self : t) : Z := Z.of_nat (length (memory self)).

(** [push] *)
Definition push (x : T) : StE t unit :=
  fun self =>
    let mem1 :=
      if (len self <? capacity self)%Z then memory self ++ [None]
      else memory self in
    match setitem mem1 (position self) (Some x) with
    | Raise e => (Raise e, mk (capacity self) mem1 (position self))
    | Ok mem2 =>
        match py_mod (position self + 1) (capacity self) with
        | Raise e => (Raise e, mk (capacity self) mem2 (position self))
        | Ok p => (Ok tt, mk (capacity self) mem2 p)
        end
    end.

(** [sample]: reads the buffer, draws from the generator. *)
Definition sample (self : t) (batch_size : Z)
  : StE random.state (list (option T)) :=
  random.sample (memory self) batch_size.

(** A sequence of [push] calls. *)
Fixpoint push_all (xs : list T) : StE t unit :=
  match xs with
  | [] => ret tt
  | x :: rest => bind (push x) (fun _ => push_all rest)
  end.

(** The buffer read from the write cursor on: oldest entry first once
    the buffer is full. *)
Definition chronological (self : t) : list (option T) :=
  let p := Z.to_nat (position self) in
  skipn p (memory self) ++ firstn p (memory self).

(** What holds after the transitions [hist] were pushed, in order, on a
    fresh memory of capacity [C]. *)
Definition ring_inv (C : Z) (hist : list T) (m : t) : Prop :=
  capacity m = C /\
  position m = (Z.of_nat (length hist) mod C)%Z /\
  length (memory m) = min (length hist) (Z.to_nat C) /\
  chronological m = map Some (lastn (Z.to_nat C) hist).

End WithTransition.
End ReplayMemory.

(** ** Exceptions without state *)

Definition bindR {A B : Type} (r : result A) (k : A -> result B) : result B :=
  match r with
  | Ok a => k a
  | Raise e => Raise e
  end.

Declare Scope res_scope.
Delimit Scope res_scope with res.
Notation "x <- m ;; k" := (bindR m (fun x => k))
  (at level 61, m at next level, right associativity) : res_scope.

(** ** Tensors and the [torch] functions the program calls *)

(** A state: shape (1, F, N), given by its F rows. *)
Definition state : Type := list (list Q).

(** [torch.cat] of tensors whose leading dimension is 1: the batch of
    its arguments.  An empty argument list is refused. *)
Definition torch_cat {A : Type} (ts : list A) : result (list A) :=
  match ts with
  | [] => Raise RuntimeError
  | _ :: _ => Ok ts
  end.

Definition is_nonzero (x : Q) : bool := negb (Qeq_bool x 0).

Fixpoint nonzero_from (i : nat) (row : list Q) : list nat :=
  match row with
  | [] => []
  | x :: rest =>
      if is_nonzero x then i :: nonzero_from (S i) rest
      else nonzero_from (S i) rest
  end.

(** [torch.nonzero] of a vector: the indices of its nonzero entries. *)
Definition torch_nonzero (row : list Q) : list nat := nonzero_from 0 row.

Fixpoint argmax_from (best_i : nat) (best : Q) (i : nat) (l : list Q) : nat :=
  match l with
  | [] => best_i
  | x :: rest =>
      if Qle_bool x best then argmax_from best_i best (S i) rest
      else argmax_from i x (S i) rest
  end.

(** [Tensor.argmax()]: the index of the first maximal entry. *)
Definition argmax (l : list Q) : result nat :=
  match l with
  | [] => Raise RuntimeError
  | x :: rest => Ok (argmax_from 0 x 1 rest)
  end.

(** [row.max()] *)
Definition row_max (l : list Q) : result Q :=
  match l with
  | [] => Raise RuntimeError
  | x :: rest => Ok (fold_left (fun m y => if Qle_bool y m then m else y) rest x)
  end.

(** [t.max(1)[0]] *)
Fixpoint max_rows (rows : list (list Q)) : result (list Q) :=
  match rows with
  | [] => Ok []
  | r :: rest =>
      (m <- row_max r ;; ms <- max_rows rest ;; Ok (m :: ms))%res
  end.

(** [t.gather(1, index)] with an index of shape (B, 1). *)
Fixpoint gather (rows : list (list Q)) (index : list nat) : result (list Q) :=
  match index, rows with
  | [], _ => Ok []
  | a :: index', row :: rows' =>
      match nth_error row a with
      | Some q => (qs <- gather rows' index' ;; Ok (q :: qs))%res
      | None => Raise RuntimeError
      end
  | _ :: _, [] => Raise RuntimeError
  end.

(** [base[mask] = vals] *)
Fixpoint masked_assign (base : list Q) (mask : list bool) (vals : list Q)
  : result (list Q) :=
  match base, mask with
  | [], [] =>
      match vals with
      | [] => Ok []
      | _ :: _ => Raise RuntimeError
      end
  | b :: base', m :: mask' =>
      if m then
        match vals with
        | v :: vals' => (r <- masked_assign base' mask' vals' ;; Ok (v :: r))%res
        | [] => Raise RuntimeError
        end
      else (r <- masked_assign base' mask' vals ;; Ok (b :: r))%res
  | _, _ => Raise IndexError
  end.

(** Element-wise [(v * gamma) + r] of two vectors of the same length. *)
Fixpoint scale_add (gamma : Q) (vs rs : list Q) : result (list Q) :=
  match vs, rs with
  | [], [] => Ok []
  | v :: vs', r :: rs' =>
      (rest <- scale_add gamma vs' rs' ;; Ok ((v * gamma + r)%Q :: rest))%res
  | _, _ => Raise RuntimeError
  end.

(** ** [Transition] *)

Record Transition : Type := mkTransition {
  t_state : state;
  action : nat;
  next_state : option state;
  reward : Q
}.

Definition is_some {A : Type} (o : option A) : bool :=
  match o with
  | Some _ => true
  | None => false
  end.

Fixpoint not_none {A : Type} (l : list (option A)) : list A :=
  match l with
  | [] => []
  | Some x :: rest => x :: not_none rest
  | None :: rest => not_none rest
  end.

(** The transposition of the sampled batch into a [Transition] of
    columns: every sampled slot must be a transition, and there must be
    at least one. *)
Fixpoint unpack (l : list (option Transition)) : result (list Transition) :=
  match l with
  | [] => Ok []
  | Some t :: rest => (ts <- unpack rest ;; Ok (t :: ts))%res
  | None :: _ => Raise TypeError
  end.

Definition transpose_batch (l : list (option Transition))
  : result (list Transition) :=
  match l with
  | [] => Raise TypeError
  | _ :: _ => unpack l
  end.

(** ** Configuration and collaborators *)

Record Config : Type := mkConfig {
  epi_num : Z;
  batch : Z;
  update_tgt : Z;
  store : Z
}.

(** The network [AttnRouteChoose] with its optimiser. *)
Class Net : Type := {
  params : Type;                      (* a state_dict *)
  optim_state : Type;                 (* the state of RMSprop *)
  grads : Type;
  forward : params -> state -> list Q;
  (* gradient of smooth_l1_loss(Q(s, a), target) in the parameters *)
  backward : params -> list state -> list nat -> list Q -> list Q -> grads;
  clamp_grads : grads -> grads;       (* clamp_(-1, 1) on every gradient *)
  rmsprop_init : params -> optim_state;
  rmsprop_step : params -> optim_state -> grads -> params * optim_state
}.

(** The environment. *)
Class Env : Type := {
  env_state : Type;
  env_reset : env_state -> state * env_state;
  env_step : nat -> env_state -> (state * Q * bool) * env_state
}.

(** ** [select_action] *)

Definition EPS_START : R := 0.9%R.
Definition EPS_END : R := 0.05%R.
Definition EPS_DECAY : R := 200%R.

(** [EPS_END + (EPS_START - EPS_END) * math.exp(-1. * steps_done / EPS_DECAY)] *)
Definition eps_threshold (steps_done : Z) : R :=
  (EPS_END + (EPS_START - EPS_END) * exp (-1 * IZR steps_done / EPS_DECAY))%R.

(** [state.transpose(1, 0)[-2, 0]]: the row before the last. *)
Definition feasibility_row (st : state) : result (list Q) := getitem st (-2)%Z.

Section Program.

Context {net : Net} {environment : Env}.

Definition select_action (st : state) (steps_done : Z) (policy_net : params)
  : StE random.state (nat * Z) :=
  fun g =>
    let (sample, g1) := random.random g in
    let steps_done' := (steps_done + 1)%Z in
    if Rgt_dec sample (eps_threshold steps_done) then
      match argmax (forward policy_net st) with
      | Ok a => (Ok (a, steps_done'), g1)
      | Raise e => (Raise e, g1)
      end
    else
      match feasibility_row st with
      | Raise e => (Raise e, g1)
      | Ok row =>
          let access := torch_nonzero row in
          match random.randrange (Z.of_nat (length access)) g1 with
          | (Raise e, g2) => (Raise e, g2)
          | (Ok idx, g2) =>
              match getitem access idx with
              | Ok a => (Ok (a, steps_done'), g2)
              | Raise e => (Raise e, g2)
              end
          end
      end.

(** ** [optimize_model] *)

Definition GAMMA : Q := 0.999%Q.

(** Lines 105 to 126: the batch tensors, [Q(s, a)] and the expected
    values [(next_state_values * GAMMA) + reward_batch]. *)
Definition td_batch (policy_net target_net : params) (batch_size : Z)
    (transitions : list Transition)
  : result (list state * list nat * list Q * list Q) :=
  (let non_final_mask := map (fun t => is_some (next_state t)) transitions in
   non_final_next_states <- torch_cat (not_none (map next_state transitions)) ;;
   state_batch <- torch_cat (map t_state transitions) ;;
   action_batch <- torch_cat (map action transitions) ;;
   reward_batch <- torch_cat (map reward transitions) ;;
   state_action_values <-
     gather (map (forward policy_net) state_batch) action_batch ;;
   let zeros := repeat 0%Q (Z.to_nat batch_size) in
   best <- max_rows (map (forward target_net) non_final_next_states) ;;
   next_state_values <- masked_assign zeros non_final_mask best ;;
   expected_state_action_values <-
     scale_add GAMMA next_state_values reward_batch ;;
   Ok (state_batch, action_batch, state_action_values,
       expected_state_action_values))%res.

Record saved_info : Type := mkSaved {
  saved_config : Config;
  saved_state_dict : params;
  saved_optimizer : optim_state
}.

(** Everything the training run reads and writes. *)
Record World : Type := mkWorld {
  rng : random.state;
  env : env_state;
  policy_net : params;
  target_net : params;
  optimizer : optim_state;
  memory : ReplayMemory.t Transition;
  saves : list (Z * saved_info)     (* the calls of torch.save, in order *)
}.

Definition get : StE World World := fun w => (Ok w, w).

Definition with_rng {A : Type} (m : StE random.state A) : StE World A :=
  fun w =>
    let (r, g) := m (rng w) in
    (r, mkWorld g (env w) (policy_net w) (target_net w) (optimizer w)
          (memory w) (saves w)).

Definition with_memory {A : Type} (m : StE (ReplayMemory.t Transition) A)
  : StE World A :=
  fun w =>
    let (r, mem) := m (memory w) in
    (r, mkWorld (rng w) (env w) (policy_net w) (target_net w) (optimizer w)
          mem (saves w)).

Definition with_env {A : Type} (m : env_state -> A * env_state)
  : StE World A :=
  fun w =>
    let (a, e) := m (env w) in
    (Ok a, mkWorld (rng w) e (policy_net w) (target_net w) (optimizer w)
             (memory w) (saves w)).

(** [optimizer.step()]: new parameters and optimiser state. *)
Definition set_policy (p : params) (o : optim_state) : StE World unit :=
  fun w =>
    (Ok tt, mkWorld (rng w) (env w) p (target_net w) o (memory w) (saves w)).

(** [target_net.load_state_dict(policy_net.state_dict())] *)
Definition load_target : StE World unit :=
  fun w =>
    (Ok tt, mkWorld (rng w) (env w) (policy_net w) (policy_net w)
              (optimizer w) (memory w) (saves w)).

(** [torch.save(saved_info, "saved/attn_{}.pth".format(key))] *)
Definition torch_save (cfg : Config) (key : Z) : StE World unit :=
  fun w =>
    (Ok tt, mkWorld (rng w) (env w) (policy_net w) (target_net w)
              (optimizer w) (memory w)
              (saves w ++ [(key, mkSaved cfg (policy_net w) (optimizer w))])).

(** [memory.sample(batch_size)] *)
Definition memory_sample (batch_size : Z)
  : StE World (list (option Transition)) :=
  (w <- get ;; with_rng (ReplayMemory.sample (memory w) batch_size))%ste.

Definition optimize_model (batch_size : Z) : StE World unit :=
  (w <- get ;;
   if (ReplayMemory.len (memory w) <? batch_size)%Z then ret tt
   else
     sampled <- memory_sample batch_size ;;
     transitions <- lift_result (transpose_batch sampled) ;;
     ' (state_batch, action_batch, q, y) <-
       lift_result (td_batch (policy_net w) (target_net w) batch_size
                      transitions) ;;
     (* loss = smooth_l1_loss(q, y); zero_grad(); backward(); clamp_ *)
     let g := clamp_grads (backward (policy_net w) state_batch action_batch q y) in
     let (p, o) := rmsprop_step (policy_net w) (optimizer w) g in
     set_policy p o)%ste.

(** ** [rl_process] *)

(** The [for t in count()] loop of one episode, cut off after [fuel]
    steps; returns [steps_done] and the duration [t + 1]. *)
Fixpoint episode_steps (fuel : nat) (cfg : Config) (t : Z) (st : state)
    (steps_done : Z) : StE World (Z * Z) :=
  match fuel with
  | O => raise OutOfFuel
  | S fuel' =>
      (w <- get ;;
       ' (action, steps_done) <-
         with_rng (select_action st steps_done (policy_net w)) ;;
       ' (next_st, reward, done) <- with_env (env_step action) ;;
       let next_state := if done : bool then None else Some next_st in
       with_memory
         (ReplayMemory.push (mkTransition st action next_state reward)) ;;;
       optimize_model (batch cfg) ;;;
       if done then ret (steps_done, (t + 1)%Z)
       else episode_steps fuel' cfg (t + 1)%Z next_st steps_done)%ste
  end.

(** Lines 181 and 182. *)
Definition target_sync (cfg : Config) (i_episode : Z) : StE World unit :=
  (r <- lift_result (py_mod i_episode (update_tgt cfg)) ;;
   if (r =? 0)%Z then load_target else ret tt)%ste.

(** Lines 184 to 187. *)
Definition checkpoint (cfg : Config) (store_step i_episode : Z)
  : StE World unit :=
  (r <- lift_result (py_mod (i_episode + 1) store_step) ;;
   if (r =? 0)%Z then torch_save cfg (i_episode + 1)%Z else ret tt)%ste.

(** Lines 159 to 178: the interaction of one episode. *)
Definition run_steps (fuel : nat) (cfg : Config) (steps_done : Z)
  : StE World (Z * Z) :=
  (st <- with_env env_reset ;;
   episode_steps fuel cfg 0%Z st steps_done)%ste.

(** One pass of the body of the episode loop. *)
Definition episode (fuel : nat) (cfg : Config) (store_step i_episode : Z)
    (steps_done : Z) : StE World (Z * Z) :=
  (r <- run_steps fuel cfg steps_done ;;
   target_sync cfg i_episode ;;;
   checkpoint cfg store_step i_episode ;;;
   ret r)%ste.

(** [for i_episode in range(...)], with [n] episodes left. *)
Fixpoint episodes (fuel : nat) (cfg : Config) (store_step : Z) (n : nat)
    (i_episode steps_done : Z) (episode_durations : list Z)
  : StE World (list Z) :=
  match n with
  | O => ret episode_durations
  | S n' =>
      (' (steps_done', d) <- episode fuel cfg store_step i_episode steps_done ;;
       episodes fuel cfg store_step n' (i_episode + 1)%Z steps_done'
         (episode_durations ++ [d]))%ste
  end.

(** Lines 143 to 149, in a world that holds the two networks as
    constructed: the target network takes the policy network's
    parameters, the optimiser and the replay memory are created. *)
Definition rl_setup : StE World unit :=
  (load_target ;;;
   w <- get ;;
   set_policy (policy_net w) (rmsprop_init (policy_net w)) ;;;
   with_memory (fun _ => (Ok tt, ReplayMemory.init Transition 10000)))%ste.

(** [rl_process]; returns [episode_durations], which the source hands to
    [plot_durations]. *)
Definition rl_process (fuel : nat) (cfg : Config) : StE World (list Z) :=
  (rl_setup ;;;
   store_step <- lift_result (py_int_truediv (epi_num cfg) (store cfg)) ;;
   episodes fuel cfg store_step (Z.to_nat (epi_num cfg)) 0%Z 0%Z [])%ste.

(** ** Vocabulary of the properties *)

(** The value a transition contributes to its target: the greatest
    output of the target network on the next state, 0 at the end of an
    episode. *)
Definition next_value (target : params) (t : Transition) (v : Q) : Prop :=
  match next_state t with
  | Some s => row_max (forward target s) = Ok v
  | None => v = 0%Q
  end.

(** [w'] differs from [w] at most in the target network and in the saved
    files. *)
Definition sync_frame (w w' : World) : Prop :=
  rng w' = rng w /\ env w' = env w /\ policy_net w' = policy_net w /\
  optimizer w' = optimizer w /\ memory w' = memory w.

(** [w'] has the target network and the saved files of [w]. *)
Definition step_frame (w w' : World) : Prop :=
  target_net w' = target_net w /\ saves w' = saves w.

(** A computation relates every world to the world it leaves. *)
Definition preserves (P : World -> World -> Prop) {A : Type}
    (m : StE World A) : Prop :=
  forall w, P w (snd (m w)).

(** The world after [torch.save] under [key]. *)
Definition with_save (cfg : Config) (key : Z) (w : World) : World :=
  mkWorld (rng w) (env w) (policy_net w) (target_net w) (optimizer w)
    (memory w) (saves w ++ [(key, mkSaved cfg (policy_net w) (optimizer w))]).

End Program.

(** The 1-based indices of the [n] episodes after episode [i] that
    [store_step] divides. *)
Definition stretch (store_step i : Z) (n : nat) : list Z :=
  filter (fun k => (k mod store_step =? 0)%Z)
         (map (fun j => (i + Z.of_nat j)%Z) (seq 1 n)).

(** The 1-based episode indices up to [n] that [store_step] divides. *)
Definition cadence (store_step : Z) (n : nat) : list Z :=
  filter (fun k => (k mod store_step =? 0)%Z) (map Z.of_nat (seq 1 n)).

(** ** A small instance

    A network with one parameter [p] whose output is [[0; p]] on every
    state, an optimiser that counts its steps, and an environment whose
    episodes end at the first step. *)

Definition toy_net : Net := {|
  params := Q;
  optim_state := nat;
  grads := unit;
  forward := fun p _ => [0%Q; p];
  backward := fun _ _ _ _ _ => tt;
  clamp_grads := fun g => g;
  rmsprop_init := fun _ => O;
  rmsprop_step := fun p o _ => (p, S o)
|}.

Definition toy_state : state := [[1%Q; 0%Q]; [0%Q; 0%Q]].

Definition toy_env : Env := {|
  env_state := unit;
  env_reset := fun e => (toy_state, e);
  env_step := fun _ e => ((toy_state, 1%Q, true), e)
|}.

Definition toy_rng : random.state := random.mk (fun n => Z.of_nat n) 0.

(** A generator whose first draw is the largest one: [random.random()]
    returns [(2^53 - 1) / 2^53]. *)
Definition greedy_rng : random.state := random.mk (fun _ => (2 ^ 53 - 1)%Z) 0.

Definition toy_memory (ts : list Transition) (position : Z)
  : ReplayMemory.t Transition :=
  ReplayMemory.mk 10000 (map Some ts) position.

Definition toy_world (ts : list Transition) : @World toy_net toy_env :=
  @mkWorld toy_net toy_env toy_rng tt 1%Q 1%Q O
    (toy_memory ts (Z.of_nat (length ts))) [].

(** Four episodes, two checkpoints, a batch larger than the memory. *)
Definition toy_config : Config := mkConfig 4 20000 1 2.

(** One episode, two checkpoints asked for. *)
Definition short_config : Config := mkConfig 1 20000 1 2.

(** No episode at all. *)
Definition idle_config : Config := mkConfig 0 20000 1 1.

(** A world whose target network differs from its policy network. *)
Definition unsynced_world : @World toy_net toy_env :=
  @mkWorld toy_net toy_env toy_rng tt 2%Q 1%Q O (toy_memory [] 0) [].

(** What the toy run keeps true of its world: the memory is the result
    of pushes on a fresh memory of capacity 10000. *)
Definition toy_inv (w : @World toy_net toy_env) : Prop :=
  exists hist, ReplayMemory.ring_inv 10000 hist (memory w).

(** A transition that ends an episode, and one that does not. *)
Definition terminal_transition : Transition :=
  mkTransition toy_state 0 None 1%Q.

Definition running_transition : Transition :=
  mkTransition toy_state 0 (Some toy_state) 1%Q.

(* ------------------------------------------------------------------ *)
(** * Part I, continued: plotting, evaluation, further vocabulary       *)
(* ------------------------------------------------------------------ *)

(** ** Episodes and batches: vocabulary of the further properties *)

(** A stored transition that ends its episode. *)
Definition is_terminal (t : Transition) : bool := negb (is_some (next_state t)).

(** The transitions one episode pushes: continuing ones, then a terminal
    one. *)
Definition episode_shape (pushed : list Transition) : Prop :=
  exists pre last,
    pushed = pre ++ [last] /\ next_state last = None /\
    Forall (fun t => next_state t <> None) pre.

(** [sum(durations)] *)
Definition total (ds : list Z) : Z := fold_right Z.add 0%Z ds.

(** ** Figures

    What [matplotlib] is asked to draw, in the order of the calls. *)

Module plt.

Inductive label : Type :=
| DC
| LOC (idx : nat)
| CUS (idx : nat).

Inductive artist : Type :=
| Curve (ys : list Q)
| Scatter (x y : Q) (color marker : String.string) (lab : label)
| Arrow (x y dx dy head_width head_length : Q) (color : String.string)
        (linewidth : Q).

(** A saved figure: the two numbers of its file name and its content. *)
Record figure : Type := mkFigure {
  env_idx : Z;
  turns : Z;
  artists : list artist
}.

End plt.

(** [mapM] over lists, for code that may raise in a comprehension or a
    [for] loop that only collects. *)
Fixpoint for_each {A B : Type} (f : A -> result B) (l : list A)
  : result (list B) :=
  match l with
  | [] => Ok []
  | a :: rest => (b <- f a ;; bs <- for_each f rest ;; Ok (b :: bs))%res
  end.

(** ** [plot_durations] *)

(** [t.unfold(0, size, 1)]: the windows of [size] consecutive entries. *)
Definition torch_unfold (size : nat) (l : list Q) : result (list (list Q)) :=
  if size <=? length l
  then Ok (map (fun i => firstn size (skipn i l)) (seq 0 (length l + 1 - size)))
  else Raise RuntimeError.

(** [window.mean()] *)
Definition tensor_mean (l : list Q) : Q :=
  (fold_right Qplus 0 l / inject_Z (Z.of_nat (length l)))%Q.

(** The curves [plot_durations] draws before it saves "durations.png". *)
Definition plot_durations (episode_durations : list Z)
  : result (list plt.artist) :=
  let durations_t := map inject_Z episode_durations in
  let fig := [plt.Curve durations_t] in
  if 100 <=? length durations_t then
    (windows <- torch_unfold 100 durations_t ;;
     let means := map tensor_mean windows in
     let means := repeat 0%Q 99 ++ means in
     Ok (fig ++ [plt.Curve means]))%res
  else Ok fig.

(** ** [eval_plt] *)

(** What [eval_plt] reads of the environment. *)
Record PlotEnv : Type := mkPlotEnv {
  all_coord : list (Q * Q);
  loc_coord : list (Q * Q);
  cus_coord : list (Q * Q);
  customer_per_region : Z;
  trace : list Z
}.

Module palette.
Import String.

Definition node_color : list string :=
  ["red"; "chocolate"; "orange"; "olive"; "yellow"; "palegreen";
   "seagreen"; "cadetblue"; "navy"; "darkviolet"; "deeppink"]%string.

Definition colors : list string :=
  ["k"; "r"; "y"; "g"; "c"; "b"; "m"]%string.

Definition black : string := "k"%string.
Definition star : string := "*"%string.
Definition square : string := ","%string.
Definition circle : string := "o"%string.

End palette.

(** [x[i], x[j] = x[j], x[i]] *)
Definition swap {A : Type} (x : list A) (i j : nat) : list A :=
  match nth_error x i, nth_error x j with
  | Some a, Some b => list_set (list_set x i b) j a
  | _, _ => x
  end.

(** The loop of [random.shuffle], from index [i] down to 1: the entry at
    [i] is exchanged with one of the entries at 0..[i]. *)
Fixpoint shuffle_from {A : Type} (i : nat) (x : list A) (g : random.state)
  : list A * random.state :=
  match i with
  | O => (x, g)
  | S i' =>
      let (j, g1) := random.randbelow (S (S i')) g in
      shuffle_from i' (swap x (S i') j) g1
  end.

(** [random.shuffle(x)] *)
Definition random_shuffle {A : Type} (x : list A) (g : random.state)
  : list A * random.state :=
  shuffle_from (length x - 1) x g.

Definition list_max (l : list Q) : Q :=
  match l with
  | [] => 0%Q
  | x :: rest => fold_left (fun m y => if Qle_bool y m then m else y) rest x
  end.

Definition list_min (l : list Q) : Q :=
  match l with
  | [] => 0%Q
  | x :: rest => fold_left (fun m y => if Qle_bool m y then m else y) rest x
  end.

(** [max(v) - min(v)] after [np.append(v, [0])]. *)
Definition extent (v : list Q) : Q :=
  (list_max (v ++ [0]) - list_min (v ++ [0]))%Q.

(** [x_rng * y_rng / 90000] *)
Definition plot_factor (env : PlotEnv) : Q :=
  (extent (map fst (all_coord env)) * extent (map snd (all_coord env))
   / 90000)%Q.

Definition lookup {A : Type} (l : list A) (i : nat) : result A :=
  match nth_error l i with
  | Some a => Ok a
  | None => Raise IndexError
  end.

(** The inner loop over the customers of region [idx]. *)
Definition draw_customers (color : String.string) (env : PlotEnv) (idx : nat)
  : result (list plt.artist) :=
  for_each
    (fun cus =>
       (xy <- getitem (cus_coord env)
                (Z.of_nat idx * customer_per_region env + Z.of_nat cus)%Z ;;
        Ok (plt.Scatter (fst xy) (snd xy) color palette.circle (plt.CUS idx)))%res)
    (seq 0 (Z.to_nat (customer_per_region env))).

(** The loop over [enumerate(env.loc_coord)], from index [idx] on. *)
Fixpoint draw_nodes (node_color : list String.string) (env : PlotEnv)
    (idx : nat) (locs : list (Q * Q)) : result (list plt.artist) :=
  match locs with
  | [] => Ok []
  | (x, y) :: rest =>
      (color <- lookup node_color idx ;;
       customers <- draw_customers color env idx ;;
       others <- draw_nodes node_color env (S idx) rest ;;
       Ok (plt.Scatter x y color palette.square (plt.LOC idx)
             :: customers ++ others))%res
  end.

(** The coordinates of a node of the trace; -1 is the depot. *)
Definition coord_of (env : PlotEnv) (node : Z) : result (Q * Q) :=
  if (node =? -1)%Z then Ok (0%Q, 0%Q) else getitem (all_coord env) node.

(** [zip(trace[:-1], trace[1:])] *)
Definition consecutive (tr : list Z) : list (Z * Z) :=
  combine (removelast tr) (tl tr).

(** The loop over the moves of the trace. *)
Fixpoint draw_trace (env : PlotEnv) (color_idx : nat) (moves : list (Z * Z))
  : result (list plt.artist) :=
  match moves with
  | [] => Ok []
  | (head, end_) :: rest =>
      (h <- coord_of env head ;;
       e <- coord_of env end_ ;;
       color <- lookup palette.colors color_idx ;;
       others <- draw_trace env
                   (if (end_ =? -1)%Z then S color_idx else color_idx) rest ;;
       Ok (plt.Arrow (fst h) (snd h) (fst e - fst h)%Q (snd e - snd h)%Q
             (3 * plot_factor env)%Q (6 * plot_factor env)%Q color
             (0.2 * plot_factor env)%Q
             :: others))%res
  end.

(** [eval_plt(env, env_idx, turns)]: the figure it saves. *)
Definition eval_plt (env : PlotEnv) (env_idx turns : Z)
  : StE random.state plt.figure :=
  fun g =>
    let (node_color, g') := random_shuffle palette.node_color g in
    ((nodes <- draw_nodes node_color env 0 (loc_coord env) ;;
      arrows <- draw_trace env 0 (consecutive (trace env)) ;;
      Ok (plt.mkFigure env_idx turns
            (plt.Scatter 0 0 palette.black palette.star plt.DC
               :: nodes ++ arrows)))%res, g').

(** The number of returns to the depot among the nodes [l]. *)
Definition returns (l : list Z) : nat :=
  length (filter (fun n => (n =? -1)%Z) l).

(** The colour a scatter of a region carries, if it is one. *)
Definition region_colour (a : plt.artist) : option (nat * String.string) :=
  match a with
  | plt.Scatter _ _ c _ (plt.LOC idx) => Some (idx, c)
  | plt.Scatter _ _ c _ (plt.CUS idx) => Some (idx, c)
  | _ => None
  end.


(** A small map: one region with one customer, and a round trip. *)
Definition demo_plot_env : PlotEnv :=
  mkPlotEnv [(1%Q, 1%Q); (2%Q, 3%Q)] [(1%Q, 1%Q)] [(2%Q, 3%Q)] 1
            [(-1)%Z; 0%Z; 1%Z; (-1)%Z].

(** A plan of eight routes on that map. *)
Definition eight_routes : PlotEnv :=
  mkPlotEnv [(1%Q, 1%Q); (2%Q, 3%Q)] [(1%Q, 1%Q)] [(2%Q, 3%Q)] 1
            [-1; 0; -1; 0; -1; 0; -1; 0; -1; 0; -1; 0; -1; 0; -1; 0; -1]%Z.

(** Twelve regions without customers and no trace. *)
Definition twelve_regions : PlotEnv :=
  mkPlotEnv [(0%Q, 0%Q)] (repeat (0%Q, 0%Q) 12) [] 0 [].

(** ** [rl_eval] *)

(** An environment that also reports its cost and what is plotted. *)
Class EvalEnv : Type := {
  eval_env : Env;
  env_split_cost : @env_state eval_env -> Q;
  env_plot : @env_state eval_env -> PlotEnv
}.

Section Evaluation.

Context {net : Net} {evaluation : EvalEnv}.

(** What an evaluation reads and writes: the generator, the environment
    and the figures saved so far. *)
Record EvalWorld : Type := mkEvalWorld {
  eval_rng : random.state;
  eval_state : @env_state eval_env;
  figures : list plt.figure
}.

(** The [for t in count()] loop of one evaluation episode, cut off after
    [fuel] steps; returns the log [(cost, trace)] of the episode. *)
Fixpoint rollout (fuel : nat) (policy : params) (i_episode t : Z)
    (st : state) : StE EvalWorld (Q * list Z) :=
  match fuel with
  | O => raise OutOfFuel
  | S fuel' =>
      fun w =>
        match argmax (forward policy st) with
        | Raise e => (Raise e, w)
        | Ok a =>
            let (r, e1) := @env_step eval_env a (eval_state w) in
            let (sr, done) := r in
            let (next_st, _) := sr in
            if done : bool then
              let log := (env_split_cost e1, trace (env_plot e1)) in
              match eval_plt (env_plot e1) i_episode t (eval_rng w) with
              | (Ok fig, g') =>
                  (Ok log, mkEvalWorld g' e1 (figures w ++ [fig]))
              | (Raise e, g') => (Raise e, mkEvalWorld g' e1 (figures w))
              end
            else
              rollout fuel' policy i_episode (t + 1)%Z next_st
                (mkEvalWorld (eval_rng w) e1 (figures w))
        end
  end.

(** [for i_episode in range(epi_num)], with [n] episodes left. *)
Fixpoint eval_episodes (fuel : nat) (policy : params) (n : nat)
    (i_episode : Z) (logs : list (Q * list Z))
  : StE EvalWorld (list (Q * list Z)) :=
  match n with
  | O => ret logs
  | S n' =>
      fun w =>
        let (st, e0) := @env_reset eval_env (eval_state w) in
        match rollout fuel policy i_episode 0%Z st
                (mkEvalWorld (eval_rng w) e0 (figures w)) with
        | (Ok log, w1) =>
            eval_episodes fuel policy n' (i_episode + 1)%Z (logs ++ [log]) w1
        | (Raise e, w1) => (Raise e, w1)
        end
  end.

(** [rl_eval(epi_num)], given the content of the loaded checkpoint and an
    environment built from its config; the logs are dropped at the end, as
    in the source. *)
Definition rl_eval (fuel : nat) (saved : saved_info) (epi_num : Z)
  : StE EvalWorld unit :=
  (logs <- eval_episodes fuel (saved_state_dict saved) (Z.to_nat epi_num)
             0%Z [] ;;
   ret tt)%ste.

End Evaluation.

Definition toy_eval_env : EvalEnv := {|
  eval_env := toy_env;
  env_split_cost := fun _ => 3%Q;
  env_plot := fun _ => demo_plot_env
|}.

(* ================================================================== *)
(** * Part II: properties                                              *)
(* ================================================================== *)

(** ** Lists *)

Section ListFacts.

Variable A : Type.
Implicit Types (l : list A) (x y : A).

Lemma list_set_length l i x : length (list_set l i x) = length l.
Proof.
  revert i; induction l as [|h t IH]; intros [|i]; simpl; auto.
Qed.

Lemma list_set_split l i x :
  i < length l -> list_set l i x = firstn i l ++ x :: skipn (S i) l.
Proof.
  revert i; induction l as [|h t IH]; intros [|i] Hi; simpl in *;
    try lia; auto.
  f_equal. apply IH. lia.
Qed.

Lemma list_set_snoc l y x : list_set (l ++ [y]) (length l) x = l ++ [x].
Proof. induction l as [|h t IH]; simpl; congruence. Qed.

Lemma nth_error_list_set_eq l i x :
  i < length l -> nth_error (list_set l i x) i = Some x.
Proof.
  revert i; induction l as [|h t IH]; intros [|i] Hi; simpl in *;
    try lia; auto.
  apply IH. lia.
Qed.

Lemma tl_skipn l n : tl (skipn n l) = skipn (S n) l.
Proof.
  revert l; induction n as [|n IH]; intros [|h t]; simpl; auto.
Qed.

Lemma skipn_nonempty l n : n < length l -> skipn n l <> [].
Proof.
  intros Hn E. apply (f_equal (@length A)) in E.
  rewrite length_skipn in E. simpl in E. lia.
Qed.

Lemma tl_app_nonempty l1 l2 : l1 <> [] -> tl (l1 ++ l2) = tl l1 ++ l2.
Proof. destruct l1; [congruence | reflexivity]. Qed.

Lemma lastn_all k l : length l <= k -> lastn k l = l.
Proof.
  intros H. unfold lastn. replace (length l - k) with 0 by lia. reflexivity.
Qed.

Lemma lastn_length k l : length (lastn k l) = min k (length l).
Proof. unfold lastn. rewrite length_skipn. lia. Qed.

Lemma lastn_snoc k l x :
  0 < k -> k <= length l -> lastn k (l ++ [x]) = tl (lastn k l) ++ [x].
Proof.
  intros Hk Hl. unfold lastn. rewrite length_app. simpl.
  rewrite tl_skipn, skipn_app.
  replace (length l + 1 - k) with (S (length l - k)) by lia.
  replace (S (length l - k) - length l) with 0 by lia.
  reflexivity.
Qed.

Lemma skipn_middle l1 l2 x p :
  length l1 = p -> skipn (S p) (l1 ++ x :: l2) = l2.
Proof.
  intros <-. induction l1 as [|h t IH]; simpl; auto.
Qed.

Lemma firstn_middle l1 l2 x p :
  length l1 = p -> firstn (S p) (l1 ++ x :: l2) = l1 ++ [x].
Proof.
  intros <-. induction l1 as [|h t IH]; simpl in *; congruence.
Qed.

(** Writing at the cursor and advancing it drops the oldest entry of
    the rotated reading and appends the new one. *)
Lemma rotate_set l p x :
  p < length l ->
  let l' := list_set l p x in
  let p' := if S p <? length l then S p else 0 in
  skipn p' l' ++ firstn p' l' = tl (skipn p l ++ firstn p l) ++ [x].
Proof.
  intros Hp l' p'. subst l' p'.
  rewrite tl_app_nonempty by (apply skipn_nonempty; exact Hp).
  rewrite tl_skipn, list_set_split by exact Hp.
  assert (Hf : length (firstn p l) = p) by (rewrite length_firstn; lia).
  destruct (S p <? length l) eqn:E.
  - rewrite skipn_middle, firstn_middle by exact Hf.
    rewrite <- app_assoc. reflexivity.
  - apply Nat.ltb_ge in E.
    rewrite (@skipn_all2 _ (S p) l) by lia.
    simpl. rewrite app_nil_r. reflexivity.
Qed.

Lemma rotate_permutation l p :
  Permutation (skipn p l ++ firstn p l) l.
Proof.
  rewrite Permutation_app_comm, firstn_skipn. reflexivity.
Qed.

End ListFacts.

Lemma map_tl (A B : Type) (f : A -> B) (l : list A) :
  map f (tl l) = tl (map f l).
Proof. destruct l; reflexivity. Qed.

(** ** The replay memory is a ring buffer *)

Section ReplayMemoryFacts.

Variable T : Type.
Import ReplayMemory.

Lemma ring_inv_init C : ring_inv C [] (init T C).
Proof.
  unfold ring_inv, chronological, lastn; simpl.
  repeat split; auto.
Qed.

Lemma push_all_snoc xs x (m : ReplayMemory.t T) :
  push_all (xs ++ [x]) m = bind (push_all xs) (fun _ => push x) m.
Proof.
  revert m; induction xs as [|h t IH]; intros m; simpl.
  - unfold bind, ret. destruct (push x m) as [[[]|e] m']; reflexivity.
  - unfold bind in *. destruct (push h m) as [[[]|e] m']; auto.
Qed.

Lemma py_index_in n i :
  (0 <= i < Z.of_nat n)%Z -> py_index n i = Some (Z.to_nat i).
Proof.
  intros H. unfold py_index.
  replace ((0 <=? i)%Z) with true by (symmetry; apply Z.leb_le; lia).
  replace ((i <? Z.of_nat n)%Z) with true by (symmetry; apply Z.ltb_lt; lia).
  reflexivity.
Qed.

(** One more push keeps the ring invariant, and never fails. *)
Lemma push_ring_inv C (hist : list T) (m : ReplayMemory.t T) (x : T) :
  (0 < C)%Z -> ring_inv C hist m ->
  exists m', push x m = (Ok tt, m') /\ ring_inv C (hist ++ [x]) m' /\
    (Z.to_nat C <= length hist ->
     memory m' = list_set (memory m) (Z.to_nat (position m)) (Some x)).
Proof.
  intros HC (Hcap & Hpos & Hlen & Hchr).
  set (n := length hist) in *. set (c := Z.to_nat C) in *.
  assert (HcC : Z.of_nat c = C) by (subst c; lia).
  unfold push, len. rewrite Hcap, Hlen, Hpos.
  destruct (Z.of_nat (min n c) <? C)%Z eqn:E.
  - (* the buffer still grows *)
    apply Z.ltb_lt in E. assert (Hn : n < c) by lia.
    assert (Hm : length (memory m) = n) by lia.
    rewrite Z.mod_small by lia.
    unfold setitem. rewrite py_index_in by (rewrite length_app; simpl; lia).
    rewrite Nat2Z.id, <- Hm, list_set_snoc.
    unfold py_mod. replace (C =? 0)%Z with false by (symmetry; apply Z.eqb_neq; lia).
    eexists; split; [reflexivity|]. split; [|intros; lia].
    unfold ring_inv; simpl. rewrite !length_app; simpl. fold n.
    assert (Hmem : memory m = map Some hist).
    { revert Hchr. unfold chronological. rewrite Hpos, Z.mod_small by lia.
      rewrite Nat2Z.id, <- Hm, skipn_all, firstn_all. simpl.
      fold c. rewrite lastn_all by (fold n; lia). auto. }
    repeat split.
    + rewrite Hm. f_equal. lia.
    + lia.
    + unfold chronological; simpl. fold c.
      rewrite lastn_all by (rewrite length_app; simpl; fold n; lia).
      rewrite map_app; simpl. rewrite <- Hmem.
      assert (Hcase : (Z.of_nat (length (memory m)) + 1 < C \/
                       Z.of_nat (length (memory m)) + 1 = C)%Z) by lia.
      destruct Hcase as [Hlt | Heq].
      * rewrite Z.mod_small by lia.
        replace (Z.to_nat (Z.of_nat (length (memory m)) + 1))
          with (length (memory m ++ [Some x]))
          by (rewrite length_app; simpl; lia).
        rewrite skipn_all, firstn_all. reflexivity.
      * rewrite Heq, Z_mod_same_full. simpl. apply app_nil_r.
  - (* the buffer is full: the slot under the cursor is overwritten *)
    apply Z.ltb_ge in E. assert (Hn : c <= n) by lia.
    assert (Hm : length (memory m) = c) by lia.
    assert (Hp : (0 <= Z.of_nat n mod C < C)%Z) by (apply Z.mod_pos_bound; lia).
    set (p := Z.to_nat (Z.of_nat n mod C)) in *.
    assert (HpZ : (Z.of_nat n mod C)%Z = Z.of_nat p) by (subst p; lia).
    unfold setitem. rewrite py_index_in by lia. fold p.
    unfold py_mod. replace (C =? 0)%Z with false by (symmetry; apply Z.eqb_neq; lia).
    eexists; split; [reflexivity|]. split; [|intros; reflexivity].
    unfold ring_inv; simpl. rewrite list_set_length, length_app; simpl. fold n.
    repeat split.
    + rewrite Z.add_mod_idemp_l by lia. f_equal. lia.
    + lia.
    + unfold chronological; simpl. fold c.
      rewrite lastn_snoc by (fold n; lia).
      rewrite map_app, map_tl; simpl.
      revert Hchr. unfold chronological. rewrite Hpos. fold p. fold c.
      intros <-.
      assert (Hplt : p < length (memory m)) by lia.
      pose proof (rotate_set (memory m) (Some x) Hplt) as Hrot.
      simpl in Hrot. rewrite <- Hrot. rewrite Hm.
      replace (Z.to_nat ((Z.of_nat n mod C + 1) mod C))
        with (if S p <? c then S p else 0); [reflexivity|].
      rewrite HpZ. destruct (S p <? c) eqn:E2.
      * apply Nat.ltb_lt in E2. rewrite Z.mod_small by lia. lia.
      * apply Nat.ltb_ge in E2.
        replace (Z.of_nat p + 1)%Z with C by lia.
        rewrite Z_mod_same_full. reflexivity.
Qed.

(** Pushing any sequence on a fresh memory succeeds and establishes the
    ring invariant. *)
Lemma push_all_ring_inv C (xs : list T) :
  (0 < C)%Z ->
  exists m, push_all xs (init T C) = (Ok tt, m) /\ ring_inv C xs m.
Proof.
  intros HC. induction xs as [|x xs IH] using rev_ind.
  - exists (init T C). split; [reflexivity | apply ring_inv_init].
  - destruct IH as (m & Hrun & Hinv).
    destruct (push_ring_inv x HC Hinv) as (m' & Hpush & Hinv' & _).
    exists m'. split; [|exact Hinv'].
    rewrite push_all_snoc. unfold bind. rewrite Hrun. exact Hpush.
Qed.

End ReplayMemoryFacts.

(** C2.  On a replay memory of capacity [C >= 1] every sequence of [push]
    calls succeeds; after [n] pushes the buffer holds exactly the
    [min n C] most recently pushed transitions (read from the write
    cursor on they appear oldest first), [len()] is [min n C], the write
    cursor is [n mod C] and lies in [[0, C)], and once the buffer is full
    a further push overwrites the slot under the cursor, which holds the
    oldest transition. *)
Theorem replay_memory_ring_buffer (T : Type) (C : Z) (xs : list T) :
  (0 < C)%Z ->
  exists m,
    ReplayMemory.push_all xs (ReplayMemory.init T C) = (Ok tt, m) /\
    ReplayMemory.len m = Z.min (Z.of_nat (length xs)) C /\
    length (lastn (Z.to_nat C) xs) = min (Z.to_nat C) (length xs) /\
    Permutation (ReplayMemory.memory m) (map Some (lastn (Z.to_nat C) xs)) /\
    ReplayMemory.chronological m = map Some (lastn (Z.to_nat C) xs) /\
    ReplayMemory.position m = (Z.of_nat (length xs) mod C)%Z /\
    (0 <= ReplayMemory.position m < C)%Z /\
    (forall x, (C <= Z.of_nat (length xs))%Z ->
       exists m',
         ReplayMemory.push x m = (Ok tt, m') /\
         ReplayMemory.len m' = C /\
         ReplayMemory.memory m' =
           list_set (ReplayMemory.memory m)
             (Z.to_nat (ReplayMemory.position m)) (Some x) /\
         nth_error (ReplayMemory.memory m)
             (Z.to_nat (ReplayMemory.position m)) =
           hd_error (map Some (lastn (Z.to_nat C) xs))).
Proof.
  intros HC.
  destruct (push_all_ring_inv xs HC) as (m & Hrun & Hinv).
  pose proof Hinv as (Hcap & Hpos & Hlen & Hchr).
  assert (Hbound : (0 <= Z.of_nat (length xs) mod C < C)%Z)
    by (apply Z.mod_pos_bound; lia).
  exists m. repeat split; auto; try lia.
  - unfold ReplayMemory.len. rewrite Hlen. lia.
  - apply lastn_length.
  - rewrite <- Hchr. symmetry. apply rotate_permutation.
  - intros x Hfull.
    destruct (push_ring_inv x HC Hinv) as (m' & Hpush & Hinv' & Hmem).
    exists m'. repeat split; auto.
    + destruct Hinv' as (_ & _ & Hlen' & _).
      unfold ReplayMemory.len. rewrite Hlen', length_app. simpl. lia.
    + apply Hmem. lia.
    + rewrite <- Hchr. unfold ReplayMemory.chronological.
      assert (Hlt : Z.to_nat (ReplayMemory.position m)
                    < length (ReplayMemory.memory m)) by lia.
      destruct (skipn (Z.to_nat (ReplayMemory.position m))
                  (ReplayMemory.memory m)) eqn:E.
      * exfalso. revert E. apply skipn_nonempty. exact Hlt.
      * rewrite <- hd_error_skipn, E. reflexivity.
Qed.

Lemma replay_memory_ring_buffer_witness :
  (0 < 2)%Z /\
  exists m,
    ReplayMemory.push_all [10; 20; 30] (ReplayMemory.init nat 2) = (Ok tt, m) /\
    ReplayMemory.memory m = [Some 30; Some 20] /\
    ReplayMemory.position m = 1%Z.
Proof.
  split; [lia|].
  destruct (@replay_memory_ring_buffer nat 2 [10; 20; 30]) as (m & Hrun & _);
    [lia|].
  exists m. split; [exact Hrun|].
  vm_compute in Hrun. inversion Hrun. split; reflexivity.
Defined.

(** ** Sampling without replacement *)

Section SampleFacts.

Variable A : Type.
Implicit Types (pool : list A) (g : random.state).

Lemma list_set_app_l (l1 l2 : list A) i x :
  i < length l1 -> list_set (l1 ++ l2) i x = list_set l1 i x ++ l2.
Proof.
  revert i; induction l1 as [|h t IH]; intros [|i] Hi; simpl in *;
    try lia; auto.
  f_equal. apply IH. lia.
Qed.

(** One round of the selection loop: the selected entry together with
    the shrunk pool is the pool. *)
Lemma pool_step_permutation pool j x y :
  nth_error pool j = Some x ->
  nth_error pool (length pool - 1) = Some y ->
  Permutation (x :: firstn (length pool - 1) (list_set pool j y)) pool.
Proof.
  intros Hx Hy.
  destruct (exists_last (l := pool)) as (q & z & ->).
  { intros ->. destruct j; discriminate. }
  rewrite length_app in *. simpl in *.
  replace (length q + 1 - 1) with (length q) in * by lia.
  rewrite nth_error_app2 in Hy by lia.
  replace (length q - length q) with 0 in Hy by lia.
  simpl in Hy. injection Hy as ->.
  assert (Hj : j < length (q ++ [y]))
    by (apply nth_error_Some; rewrite Hx; discriminate).
  rewrite length_app in Hj. simpl in Hj.
  destruct (Nat.eq_dec j (length q)) as [-> | Hne].
  - rewrite nth_error_app2 in Hx by lia.
    replace (length q - length q) with 0 in Hx by lia.
    simpl in Hx. injection Hx as ->.
    rewrite list_set_snoc, firstn_app, firstn_all.
    replace (length q - length q) with 0 by lia. simpl.
    rewrite app_nil_r. apply Permutation_cons_append.
  - assert (Hlt : j < length q) by lia.
    rewrite nth_error_app1 in Hx by exact Hlt.
    rewrite list_set_app_l by exact Hlt.
    rewrite firstn_app, list_set_length.
    replace (length q - length q) with 0 by lia. simpl.
    rewrite app_nil_r, firstn_all2 by (rewrite list_set_length; lia).
    rewrite list_set_split by exact Hlt.
    apply nth_error_split in Hx. destruct Hx as (a & b & -> & Hlen).
    rewrite firstn_app, skipn_middle by exact Hlen.
    rewrite firstn_all2 by lia.
    replace (j - length a) with 0 by lia. simpl. rewrite app_nil_r.
    rewrite <- app_assoc. simpl.
    apply Permutation_cons_app.
    apply Permutation_app_head.
    apply Permutation_cons_append.
Qed.

Lemma randbelow_lt n g : 0 < n -> fst (random.randbelow n g) < n.
Proof.
  intros Hn. unfold random.randbelow, random.next. simpl.
  pose proof (Z.mod_pos_bound (random.draws g (random.cursor g)) (Z.of_nat n)).
  lia.
Qed.

(** The selection loop returns [k] entries which, together with some
    rest, are the pool: no slot is used twice. *)
Lemma sample_pool_permutation k pool g :
  k <= length pool ->
  length (fst (random.sample_pool pool k g)) = k /\
  exists rest, Permutation (fst (random.sample_pool pool k g) ++ rest) pool.
Proof.
  revert pool g; induction k as [|k IH]; intros pool g Hk.
  - simpl. split; [reflexivity|]. exists pool. reflexivity.
  - cbn [random.sample_pool].
    pose proof (@randbelow_lt (length pool) g ltac:(lia)) as Hj.
    destruct (random.randbelow (length pool) g) as [j g1]. simpl in Hj.
    destruct (nth_error pool j) as [x|] eqn:Ex;
      [|apply nth_error_None in Ex; lia].
    destruct (nth_error pool (length pool - 1)) as [y|] eqn:Ey;
      [|apply nth_error_None in Ey; lia].
    pose proof (pool_step_permutation _ _ Ex Ey) as Hperm.
    set (pool' := firstn (length pool - 1) (list_set pool j y)) in *.
    assert (Hlen' : k <= length pool').
    { subst pool'. rewrite length_firstn, list_set_length. lia. }
    destruct (IH pool' g1 Hlen') as (Hl & rest & Hrest).
    destruct (random.sample_pool pool' k g1) as [l g2]. simpl in *.
    split; [congruence|].
    exists rest. rewrite <- Hperm. constructor. exact Hrest.
Qed.

End SampleFacts.

(** The selection loop does not look at the entries it moves. *)
Lemma sample_pool_map (A B : Type) (f : A -> B) k :
  forall (pool : list A) g,
    random.sample_pool (map f pool) k g =
    (map f (fst (random.sample_pool pool k g)),
     snd (random.sample_pool pool k g)).
Proof.
  induction k as [|k IH]; intros pool g; cbn [random.sample_pool];
    [reflexivity|].
  rewrite length_map.
  destruct (random.randbelow (length pool) g) as [j g1].
  rewrite !nth_error_map.
  destruct (nth_error pool j) as [x|]; simpl; [|reflexivity].
  destruct (nth_error pool (length pool - 1)) as [y|]; simpl; [|reflexivity].
  assert (E : list_set (map f pool) j (f y) = map f (list_set pool j y)).
  { clear. revert j. induction pool as [|h t IHt]; intros [|j]; simpl; auto.
    f_equal. apply IHt. }
  rewrite E, firstn_map, IH.
  destruct (random.sample_pool _ k g1); reflexivity.
Qed.

Lemma map_nth_error_seq (A : Type) (l : list A) :
  map (nth_error l) (seq 0 (length l)) = map Some l.
Proof.
  induction l as [|h t IH]; simpl; [reflexivity|].
  f_equal. rewrite <- seq_shift, map_map. simpl. exact IH.
Qed.

(** [random.sample] on [k <= len(population)]: [k] entries taken from
    pairwise different positions of the population. *)
Lemma random_sample_distinct (A : Type) (population : list A) (k : nat) g :
  k <= length population ->
  exists l g' idxs,
    random.sample population (Z.of_nat k) g = (Ok l, g') /\
    length l = k /\ length idxs = k /\ NoDup idxs /\
    (forall i, In i idxs -> i < length population) /\
    map Some l = map (nth_error population) idxs.
Proof.
  intros Hk. unfold random.sample.
  replace ((0 <=? Z.of_nat k) && (Z.of_nat k <=? Z.of_nat (length population)))%Z
    with true
    by (symmetry; apply andb_true_iff; split; [apply Z.leb_le | apply Z.leb_le]; lia).
  rewrite Nat2Z.id.
  pose proof (sample_pool_map (nth_error population) k
                (seq 0 (length population)) g) as Hmap.
  rewrite map_nth_error_seq in Hmap.
  pose proof (sample_pool_map (@Some A) k population g) as Hsome.
  rewrite Hsome in Hmap. injection Hmap as Hl _.
  assert (Hseq : k <= length (seq 0 (length population)))
    by (rewrite length_seq; exact Hk).
  destruct (@sample_pool_permutation _ k _ g Hseq) as (Hlen & rest & Hperm).
  destruct (@sample_pool_permutation _ k _ g Hk) as (Hlen' & _).
  destruct (random.sample_pool population k g) as [l g'] eqn:El.
  simpl in *.
  exists l, g', (fst (random.sample_pool (seq 0 (length population)) k g)).
  repeat split; auto.
  - apply (@NoDup_app_remove_r _ _ rest).
    apply (Permutation_NoDup (Permutation_sym Hperm)). apply seq_NoDup.
  - intros i Hi.
    assert (Hin : In i (seq 0 (length population))).
    { apply (Permutation_in _ Hperm). apply in_or_app. left. exact Hi. }
    apply in_seq in Hin. lia.
Qed.

Section SampleCall.

Context {net : Net} {environment : Env}.

Lemma world_eta (w : World) :
  mkWorld (rng w) (env w) (policy_net w) (target_net w) (optimizer w)
    (memory w) (saves w) = w.
Proof. destruct w; reflexivity. Qed.


End SampleCall.


(** ** The epsilon schedule *)

Section Epsilon.

Local Open Scope R_scope.

Lemma eps_threshold_eq (n : Z) :
  eps_threshold n = 0.05 + (0.9 - 0.05) * exp (- IZR n / 200).
Proof.
  unfold eps_threshold, EPS_END, EPS_START, EPS_DECAY.
  do 3 f_equal. lra.
Qed.

Lemma exp_neg_lt_inv (x : R) : 0 < x -> exp (- x) < / x.
Proof.
  intros Hx. rewrite exp_Ropp.
  apply Rinv_lt_contravar.
  - apply Rmult_lt_0_compat; [exact Hx | apply exp_pos].
  - pose proof (exp_ineq1 x ltac:(lra)). lra.
Qed.

Lemma eps_threshold_limit :
  Un_cv (fun k => eps_threshold (Z.of_nat k)) 0.05.
Proof.
  intros e He.
  destruct (archimed (170 / e)) as [Hup _].
  assert (H170 : 0 < 170 / e) by (apply Rdiv_lt_0_compat; lra).
  assert (Hpos : (0 < up (170 / e))%Z).
  { apply lt_IZR. lra. }
  exists (Z.to_nat (up (170 / e))). intros n Hn.
  assert (HnZ : (up (170 / e) <= Z.of_nat n)%Z) by lia.
  apply IZR_le in HnZ.
  set (x := IZR (Z.of_nat n)) in *.
  assert (Hx : 170 / e < x) by lra.
  assert (Hx0 : 0 < x) by lra.
  rewrite eps_threshold_eq. fold x.
  unfold R_dist.
  replace (0.05 + (0.9 - 0.05) * exp (- x / 200) - 0.05)
    with (0.85 * exp (- (x / 200))) by (unfold Rdiv; rewrite Ropp_mult_distr_l; lra).
  pose proof (exp_pos (- (x / 200))) as Hexp.
  rewrite Rabs_right by nra.
  pose proof (@exp_neg_lt_inv (x / 200) ltac:(lra)) as Hlt.
  assert (Hinv : / (x / 200) = 200 / x)
    by (unfold Rdiv; rewrite Rinv_mult, Rinv_inv; lra).
  rewrite Hinv in Hlt.
  assert (Hbound : 170 / x < e).
  { apply (Rmult_lt_reg_r x); [exact Hx0|].
    unfold Rdiv. rewrite Rmult_assoc, Rinv_l by lra.
    apply (Rmult_lt_compat_r e) in Hx; [|exact He].
    unfold Rdiv in Hx. rewrite Rmult_assoc, Rinv_l in Hx by lra. lra. }
  assert (0.85 * (200 / x) = 170 / x) by (unfold Rdiv; lra).
  nra.
Qed.



End Epsilon.

(** ** Tensor functions *)

Lemma nonzero_from_spec (row : list Q) : forall i a,
  In a (nonzero_from i row) ->
  i <= a /\ exists x, nth_error row (a - i) = Some x /\ ~ (x == 0)%Q.
Proof.
  induction row as [|h t IH]; intros i a Hin; simpl in Hin; [contradiction|].
  assert (Htail : In a (nonzero_from (S i) t) ->
                  i <= a /\ exists x, nth_error (h :: t) (a - i) = Some x /\ ~ (x == 0)%Q).
  { intros H. destruct (IH _ _ H) as (Hle & x & Hx & Hnz).
    split; [lia|]. exists x. split; [|exact Hnz].
    replace (a - i) with (S (a - S i)) by lia. exact Hx. }
  destruct (is_nonzero h) eqn:E; [|auto].
  destruct Hin as [<- | Hin]; [|auto].
  split; [lia|]. exists h. rewrite Nat.sub_diag. split; [reflexivity|].
  unfold is_nonzero in E. apply negb_true_iff in E.
  intros Hz. apply Qeq_bool_iff in Hz. congruence.
Qed.

Lemma torch_nonzero_spec (row : list Q) (a : nat) :
  In a (torch_nonzero row) -> exists x, nth_error row a = Some x /\ ~ (x == 0)%Q.
Proof.
  intros H. destruct (@nonzero_from_spec _ _ _ H) as (_ & x & Hx & Hnz).
  rewrite Nat.sub_0_r in Hx. eauto.
Qed.

Lemma getitem_In (A : Type) (l : list A) (i : Z) (x : A) :
  getitem l i = Ok x -> In x l.
Proof.
  unfold getitem. destruct (py_index (length l) i) as [k|]; [|discriminate].
  destruct (nth_error l k) eqn:E; [|discriminate].
  intros [= <-]. eapply nth_error_In; eauto.
Qed.

(** [argmax_from] scans [l], the part of [pre ++ l] not seen yet, with
    the first maximum of [pre] at [best_i]. *)
Lemma argmax_from_spec (l : list Q) : forall (pre : list Q) best_i best,
  nth_error pre best_i = Some best ->
  (forall j y, nth_error pre j = Some y -> (y <= best)%Q) ->
  (forall j y, j < best_i -> nth_error pre j = Some y -> (y < best)%Q) ->
  let r := argmax_from best_i best (length pre) l in
  exists m, nth_error (pre ++ l) r = Some m /\
    (forall j y, nth_error (pre ++ l) j = Some y -> (y <= m)%Q) /\
    (forall j y, j < r -> nth_error (pre ++ l) j = Some y -> (y < m)%Q).
Proof.
  induction l as [|x t IH]; intros pre best_i best Hb Hmax Hfirst; simpl.
  - rewrite app_nil_r. exists best. auto.
  - assert (Hlen : length (pre ++ [x]) = S (length pre))
      by (rewrite length_app; simpl; lia).
    assert (Hbi : best_i < length pre)
      by (apply nth_error_Some; rewrite Hb; discriminate).
    replace (pre ++ x :: t) with ((pre ++ [x]) ++ t)
      by (rewrite <- app_assoc; reflexivity).
    rewrite <- Hlen.
    assert (Hsplit : forall j y, nth_error (pre ++ [x]) j = Some y ->
              (j < length pre /\ nth_error pre j = Some y) \/
              (j = length pre /\ y = x)).
    { intros j y Hj. destruct (Nat.lt_ge_cases j (length pre)) as [Hlt|Hge].
      - left. rewrite nth_error_app1 in Hj by exact Hlt. auto.
      - right. rewrite nth_error_app2 in Hj by exact Hge.
        destruct (j - length pre) as [|d] eqn:Ed; simpl in Hj.
        + injection Hj as <-. split; [lia | reflexivity].
        + destruct d; discriminate. }
    destruct (Qle_bool x best) eqn:E.
    + apply Qle_bool_iff in E. apply IH.
      * rewrite nth_error_app1 by exact Hbi. exact Hb.
      * intros j y Hj. destruct (Hsplit _ _ Hj) as [[_ H]|[_ ->]]; eauto.
      * intros j y Hlt Hj. destruct (Hsplit _ _ Hj) as [[_ H]|[-> _]];
          [eauto | lia].
    + assert (Hlt : (best < x)%Q).
      { apply Qnot_le_lt. intros H. apply Qle_bool_iff in H. congruence. }
      apply IH.
      * rewrite nth_error_app2 by lia. rewrite Nat.sub_diag. reflexivity.
      * intros j y Hj. destruct (Hsplit _ _ Hj) as [[_ H]|[_ ->]].
        -- apply Qlt_le_weak. eapply Qle_lt_trans; [eapply Hmax; eauto | exact Hlt].
        -- apply Qle_refl.
      * intros j y Hj' Hj. destruct (Hsplit _ _ Hj) as [[_ H]|[-> _]]; [|lia].
        eapply Qle_lt_trans; [eapply Hmax; eauto | exact Hlt].
Qed.

(** [argmax] returns the position of the first greatest entry. *)
Lemma argmax_spec (l : list Q) (a : nat) :
  argmax l = Ok a ->
  exists m, nth_error l a = Some m /\
    (forall j y, nth_error l j = Some y -> (y <= m)%Q) /\
    (forall j y, j < a -> nth_error l j = Some y -> (y < m)%Q).
Proof.
  destruct l as [|x t]; simpl; [discriminate|]. intros [= <-].
  apply (@argmax_from_spec t [x] 0 x).
  - reflexivity.
  - intros [|[|j]] y; simpl; try discriminate. intros [= <-]. apply Qle_refl.
  - intros j y Hj. lia.
Qed.

Lemma random_greedy_rng :
  (fst (random.random greedy_rng) > eps_threshold 0)%R.
Proof.
  assert (E : fst (random.random greedy_rng) =
              (IZR 9007199254740991 / IZR 9007199254740992)%R)
    by reflexivity.
  rewrite E.
  unfold eps_threshold, EPS_END, EPS_START, EPS_DECAY.
  replace (-1 * 0 / 200)%R with 0%R by lra. rewrite exp_0. lra.
Qed.

Lemma select_action_exploit (net : Net) (st : state) (steps_done : Z)
    (policy : params) (g : random.state) :
  (fst (random.random g) > eps_threshold steps_done)%R ->
  select_action st steps_done policy g =
    (match argmax (forward policy st) with
     | Ok a => Ok (a, (steps_done + 1)%Z)
     | Raise e => Raise e
     end, snd (random.random g)).
Proof.
  unfold select_action. destruct (random.random g) as [u g1]. simpl.
  intros Hu. destruct (Rgt_dec u (eps_threshold steps_done)); [|contradiction].
  destruct (argmax (forward policy st)); reflexivity.
Qed.



(** ** The optimisation step *)

Section OptimizeFacts.

Context {net : Net} {environment : Env}.

Lemma not_none_all_terminal (ts : list Transition) :
  (forall t, In t ts -> next_state t = None) ->
  not_none (map next_state ts) = [].
Proof.
  induction ts as [|t ts IH]; intros H; simpl; [reflexivity|].
  rewrite (H t) by (left; reflexivity).
  apply IH. intros t' Ht'. apply H. right. exact Ht'.
Qed.

(** A batch without a single continuing transition stops at the
    concatenation of its (no) next states. *)
Lemma td_batch_all_terminal (policy target : params) (batch_size : Z)
    (ts : list Transition) :
  (forall t, In t ts -> next_state t = None) ->
  td_batch policy target batch_size ts = Raise RuntimeError.
Proof.
  intros H. unfold td_batch. rewrite not_none_all_terminal by exact H.
  reflexivity.
Qed.

Lemma torch_cat_ok (A : Type) (l l' : list A) :
  torch_cat l = Ok l' -> l' = l.
Proof. destruct l; simpl; [discriminate | congruence]. Qed.

(** [row_max] returns an entry of the row that no entry exceeds. *)
Lemma row_max_spec (l : list Q) (m : Q) :
  row_max l = Ok m ->
  In m l /\ forall y, In y l -> (y <= m)%Q.
Proof.
  destruct l as [|x rest]; simpl; [discriminate|]. intros [= <-].
  revert x. induction rest as [|z rest IH]; intros x; simpl.
  - split; [left; reflexivity|]. intros y [<-|[]]. apply Qle_refl.
  - destruct (Qle_bool z x) eqn:E.
    + apply Qle_bool_iff in E. destruct (IH x) as [Hin Hmax].
      split.
      * destruct Hin as [Hin|Hin]; [left; exact Hin | right; right; exact Hin].
      * intros y [<-|[<-|Hy]].
        -- apply Hmax. left. reflexivity.
        -- eapply Qle_trans; [exact E | apply Hmax; left; reflexivity].
        -- apply Hmax. right. exact Hy.
    + assert (Hlt : (x < z)%Q).
      { apply Qnot_le_lt. intros H. apply Qle_bool_iff in H. congruence. }
      destruct (IH z) as [Hin Hmax].
      split.
      * right. exact Hin.
      * intros y [<-|[<-|Hy]].
        -- eapply Qle_trans; [apply Qlt_le_weak; exact Hlt
                              | apply Hmax; left; reflexivity].
        -- apply Hmax. left. reflexivity.
        -- apply Hmax. right. exact Hy.
Qed.

Lemma masked_assign_next_values (target : params) (ts : list Transition) :
  forall zeros best vs,
    (forall z, In z zeros -> z = 0%Q) ->
    max_rows (map (forward target) (not_none (map next_state ts))) = Ok best ->
    masked_assign zeros (map (fun t => is_some (next_state t)) ts) best = Ok vs ->
    Forall2 (next_value target) ts vs.
Proof.
  induction ts as [|t ts IH]; intros zeros best vs Hz Hbest Hassign.
  - destruct zeros; simpl in Hassign; [|discriminate].
    destruct best; [|discriminate]. injection Hassign as <-. constructor.
  - destruct zeros as [|z zeros]; simpl in Hassign; [discriminate|].
    unfold next_value at 1.
    simpl in Hbest.
    destruct (next_state t) as [s|] eqn:Es; simpl in Hassign, Hbest.
    + destruct (row_max (forward target s)) as [m|] eqn:Em; [|discriminate].
      simpl in Hbest.
      destruct (max_rows (map (forward target) (not_none (map next_state ts))))
        as [ms|] eqn:Ems; [|discriminate].
      simpl in Hbest. injection Hbest as <-.
      destruct (masked_assign zeros _ ms) as [r|] eqn:Er; [|discriminate].
      simpl in Hassign. injection Hassign as <-.
      constructor.
      * unfold next_value. rewrite Es. exact Em.
      * apply (IH zeros ms r); auto. intros z' Hz'. apply Hz. right. exact Hz'.
    + destruct (masked_assign zeros _ best) as [r|] eqn:Er; [|discriminate].
      simpl in Hassign. injection Hassign as <-.
      constructor.
      * unfold next_value. rewrite Es. apply Hz. left. reflexivity.
      * apply (IH zeros best r); auto. intros z' Hz'. apply Hz. right. exact Hz'.
Qed.

Lemma scale_add_spec (P : Transition -> Q -> Prop) (ts : list Transition) :
  forall vs ys,
    Forall2 P ts vs ->
    scale_add GAMMA vs (map reward ts) = Ok ys ->
    Forall2 (fun t y => exists v, P t v /\ y = (v * 0.999 + reward t)%Q) ts ys.
Proof.
  induction ts as [|t ts IH]; intros vs ys HP Hs; inversion HP; subst;
    simpl in Hs.
  - injection Hs as <-. constructor.
  - destruct (scale_add GAMMA l' (map reward ts)) as [rest|] eqn:E;
      [|discriminate].
    simpl in Hs. injection Hs as <-.
    constructor; [|apply (IH l'); auto].
    exists y. split; [assumption | reflexivity].
Qed.

(** Whenever the batch tensors are built, the expected value of each
    transition is [reward + 0.999 * V(next_state)]. *)
Lemma td_batch_targets (policy target : params) (batch_size : Z)
    (ts : list Transition) sb ab q ys :
  td_batch policy target batch_size ts = Ok (sb, ab, q, ys) ->
  Forall2 (fun t y => exists v, next_value target t v /\
                                y = (v * 0.999 + reward t)%Q) ts ys.
Proof.
  unfold td_batch. intros H.
  destruct (torch_cat (not_none (map next_state ts))) as [nf|] eqn:E1;
    [|discriminate].
  apply torch_cat_ok in E1. subst nf. simpl in H.
  destruct (torch_cat (map t_state ts)) as [sb'|]; [|discriminate]. simpl in H.
  destruct (torch_cat (map action ts)) as [ab'|]; [|discriminate]. simpl in H.
  destruct (torch_cat (map reward ts)) as [rb|] eqn:E4; [|discriminate].
  apply torch_cat_ok in E4. subst rb. simpl in H.
  destruct (gather _ ab') as [q'|]; [|discriminate]. simpl in H.
  destruct (max_rows _) as [best|] eqn:E6; [|discriminate]. simpl in H.
  destruct (masked_assign _ _ best) as [vs|] eqn:E7; [|discriminate].
  simpl in H.
  destruct (scale_add GAMMA vs (map reward ts)) as [ys'|] eqn:E8;
    [|discriminate].
  simpl in H. injection H as _ _ _ <-.
  apply scale_add_spec with (vs := vs); [|exact E8].
  apply masked_assign_next_values with (zeros := repeat 0%Q (Z.to_nat batch_size))
                                       (best := best); auto.
  intros z Hz. apply repeat_spec in Hz. exact Hz.
Qed.

End OptimizeFacts.

(** C1.  On a batch in which every transition ends its episode
    [optimize_model] computes no expected value, where the specification
    expects the reward (here 1): the concatenation of the next states is
    given an empty list and raises.  The memory that holds one terminal
    transition, sampled with batch size 1, is such an input. *)
Theorem optimize_model_terminal_batch :
  ReplayMemory.len (memory (toy_world [terminal_transition])) = 1%Z /\
  next_state terminal_transition = None /\
  reward terminal_transition = 1%Q /\
  fst (optimize_model 1 (toy_world [terminal_transition])) = Raise RuntimeError.
Proof.
  repeat split; vm_compute; reflexivity.
Qed.

Section StepFrame.

Context {net : Net} {environment : Env}.

Lemma optimize_model_skip (batch_size : Z) (w : World) :
  (ReplayMemory.len (memory w) < batch_size)%Z ->
  optimize_model batch_size w = (Ok tt, w).
Proof.
  intros H. unfold optimize_model, bind, get.
  replace (ReplayMemory.len (memory w) <? batch_size)%Z with true
    by (symmetry; apply Z.ltb_lt; exact H).
  reflexivity.
Qed.

(** C7.  With fewer than [batch_size] transitions in the memory,
    [optimize_model] returns at once and the world (generator, networks,
    optimiser, memory, saved files) is exactly what it was. *)
Theorem optimize_model_too_few (batch_size : Z) (w : World) :
  (ReplayMemory.len (memory w) < batch_size)%Z ->
  optimize_model batch_size w = (Ok tt, w) /\
  policy_net (snd (optimize_model batch_size w)) = policy_net w /\
  target_net (snd (optimize_model batch_size w)) = target_net w /\
  optimizer (snd (optimize_model batch_size w)) = optimizer w /\
  memory (snd (optimize_model batch_size w)) = memory w.
Proof.
  intros H. rewrite optimize_model_skip by exact H. simpl. auto.
Qed.

(** [optimize_model] writes neither the target network, the memory, the
    environment nor the saved files. *)
Lemma optimize_model_keeps (batch_size : Z) (w : World) :
  let w' := snd (optimize_model batch_size w) in
  target_net w' = target_net w /\ memory w' = memory w /\
  env w' = env w /\ saves w' = saves w.
Proof.
  unfold optimize_model, memory_sample, bind, get, with_rng, lift_result.
  destruct (ReplayMemory.len (memory w) <? batch_size)%Z; [simpl; auto|].
  destruct (ReplayMemory.sample (memory w) batch_size (rng w)) as [[l|e] g];
    [|simpl; auto].
  destruct (transpose_batch l) as [ts|e]; [|simpl; auto].
  destruct (td_batch (policy_net w) (target_net w) batch_size ts)
    as [[[[sb ab] q] y]|e]; [|simpl; auto].
  destruct (rmsprop_step _ _ _) as [p o]. simpl. auto.
Qed.

(** C9.  A call of [optimize_model] with at least [batch_size]
    transitions in the memory, whether it returns or raises, leaves the
    target network, the replay memory (capacity, contents, cursor), the
    environment and the saved files as they were; what it may change is
    the policy network, the optimiser state and the random generator. *)
Theorem optimize_model_frame (batch_size : Z) (w : World) :
  (batch_size <= ReplayMemory.len (memory w))%Z ->
  let w' := snd (optimize_model batch_size w) in
  target_net w' = target_net w /\
  memory w' = memory w /\
  ReplayMemory.memory (memory w') = ReplayMemory.memory (memory w) /\
  ReplayMemory.position (memory w') = ReplayMemory.position (memory w) /\
  ReplayMemory.len (memory w') = ReplayMemory.len (memory w) /\
  env w' = env w /\
  saves w' = saves w.
Proof.
  intros _ w'. subst w'.
  destruct (optimize_model_keeps batch_size w) as (Ht & Hm & He & Hs).
  rewrite Hm. auto 10.
Qed.

End StepFrame.

Lemma optimize_model_too_few_witness :
  (ReplayMemory.len (memory (toy_world [])) < 1)%Z /\
  optimize_model 1 (toy_world []) = (Ok tt, toy_world []).
Proof.
  split; [vm_compute; reflexivity|].
  apply (@optimize_model_too_few toy_net toy_env). vm_compute. reflexivity.
Defined.

Lemma optimize_model_frame_witness :
  (1 <= ReplayMemory.len (memory (toy_world [running_transition])))%Z /\
  fst (optimize_model 1 (toy_world [running_transition])) = Ok tt /\
  optimizer (snd (optimize_model 1 (toy_world [running_transition]))) = 1 /\
  target_net (snd (optimize_model 1 (toy_world [running_transition]))) =
    target_net (toy_world [running_transition]) /\
  memory (snd (optimize_model 1 (toy_world [running_transition]))) =
    memory (toy_world [running_transition]).
Proof.
  split; [vm_compute; discriminate|].
  split; [vm_compute; reflexivity|].
  split; [vm_compute; reflexivity|].
  pose proof (@optimize_model_frame toy_net toy_env 1
                (toy_world [running_transition])) as H.
  destruct H as (Ht & Hm & _); [vm_compute; discriminate|].
  split; [exact Ht | exact Hm].
Defined.

(** ** The episode loop *)

Lemma py_mod_ok (a b : Z) : b <> 0%Z -> py_mod a b = Ok (a mod b)%Z.
Proof.
  intros H. unfold py_mod.
  replace (b =? 0)%Z with false by (symmetry; apply Z.eqb_neq; exact H).
  reflexivity.
Qed.

Section LoopFacts.

Context {net : Net} {environment : Env}.

Lemma sync_frame_refl (w : World) : sync_frame w w.
Proof. unfold sync_frame. auto. Qed.

Lemma sync_frame_trans (w1 w2 w3 : World) :
  sync_frame w1 w2 -> sync_frame w2 w3 -> sync_frame w1 w3.
Proof.
  unfold sync_frame. intros (?&?&?&?&?) (?&?&?&?&?).
  repeat split; congruence.
Qed.

(** The target test of an episode whose index the period divides copies
    the policy parameters; any other index leaves the world alone. *)
Lemma target_sync_spec (cfg : Config) (i : Z) (w : World) :
  update_tgt cfg <> 0%Z ->
  exists w',
    target_sync cfg i w = (Ok tt, w') /\ sync_frame w w' /\
    saves w' = saves w /\
    ((i mod update_tgt cfg)%Z = 0%Z -> target_net w' = policy_net w) /\
    ((i mod update_tgt cfg)%Z <> 0%Z -> w' = w).
Proof.
  intros Hu. unfold target_sync, bind, lift_result.
  rewrite py_mod_ok by exact Hu.
  destruct (i mod update_tgt cfg =? 0)%Z eqn:E.
  - apply Z.eqb_eq in E. eexists. split; [reflexivity|].
    unfold sync_frame; simpl. repeat split; auto. intros; contradiction.
  - apply Z.eqb_neq in E. exists w. split; [reflexivity|].
    split; [apply sync_frame_refl|]. repeat split; auto. intros; contradiction.
Qed.

(** The checkpoint test saves under the 1-based index exactly when the
    step divides it. *)
Lemma checkpoint_spec (cfg : Config) (store_step i : Z) (w : World) :
  store_step <> 0%Z ->
  checkpoint cfg store_step i w =
    (Ok tt, if ((i + 1) mod store_step =? 0)%Z
            then with_save cfg (i + 1)%Z w else w).
Proof.
  intros Hs. unfold checkpoint, bind, lift_result.
  rewrite py_mod_ok by exact Hs.
  destruct ((i + 1) mod store_step =? 0)%Z; reflexivity.
Qed.

Lemma checkpoint_zero_step (cfg : Config) (i : Z) (w : World) :
  checkpoint cfg 0 i w = (Raise ZeroDivisionError, w).
Proof. reflexivity. Qed.

Lemma stretch_S (store_step i : Z) (n : nat) :
  stretch store_step i (S n) =
  (if ((i + 1) mod store_step =? 0)%Z then [(i + 1)%Z] else []) ++
  stretch store_step (i + 1) n.
Proof.
  unfold stretch. simpl seq. simpl map. simpl filter.
  rewrite <- seq_shift, map_map.
  replace (map (fun j => (i + Z.of_nat (S j))%Z) (seq 1 n))
    with (map (fun j => (i + 1 + Z.of_nat j)%Z) (seq 1 n))
    by (apply map_ext; intros j; lia).
  destruct ((i + 1) mod store_step =? 0)%Z; reflexivity.
Qed.

Lemma stretch_0 (store_step : Z) (n : nat) :
  stretch store_step 0 n = cadence store_step n.
Proof.
  unfold stretch, cadence. f_equal.
Qed.

Lemma preserves_bind (A B : Type) (m : StE World A) (k : A -> StE World B) :
  preserves step_frame m -> (forall a, preserves step_frame (k a)) ->
  preserves step_frame (bind m k).
Proof.
  intros Hm Hk w. unfold bind. specialize (Hm w).
  destruct (m w) as [[a|e] w1]; simpl in *; [|exact Hm].
  specialize (Hk a w1). unfold step_frame in *.
  destruct Hm, Hk. split; congruence.
Qed.

Lemma preserves_pure (A : Type) (r : result A) :
  preserves step_frame (fun w => (r, w)).
Proof. intros w. unfold step_frame. auto. Qed.

Lemma preserves_get : preserves step_frame get.
Proof. intros w. unfold step_frame. auto. Qed.

Lemma preserves_with_rng (A : Type) (m : StE random.state A) :
  preserves step_frame (with_rng m).
Proof.
  intros w. unfold with_rng. destruct (m (rng w)). unfold step_frame. auto.
Qed.

Lemma preserves_with_env (A : Type) (m : env_state -> A * env_state) :
  preserves step_frame (with_env m).
Proof.
  intros w. unfold with_env. destruct (m (env w)). unfold step_frame. auto.
Qed.

Lemma preserves_with_memory (A : Type)
    (m : StE (ReplayMemory.t Transition) A) :
  preserves step_frame (with_memory m).
Proof.
  intros w. unfold with_memory. destruct (m (memory w)).
  unfold step_frame. auto.
Qed.

Lemma preserves_optimize_model (batch_size : Z) :
  preserves step_frame (optimize_model batch_size).
Proof.
  intros w. destruct (optimize_model_keeps batch_size w) as (Ht & _ & _ & Hs).
  split; assumption.
Qed.

(** The interaction of an episode writes neither the target network nor
    the saved files. *)
Lemma preserves_episode_steps (fuel : nat) (c : Config) :
  forall t st steps_done,
    preserves step_frame (episode_steps fuel c t st steps_done).
Proof.
  induction fuel as [|fuel IH]; intros t st sd; cbn [episode_steps].
  - apply preserves_pure.
  - apply preserves_bind; [apply preserves_get|]. intros w0.
    apply preserves_bind; [apply preserves_with_rng|]. intros [a sd'].
    apply preserves_bind; [apply preserves_with_env|]. intros [[ns r] done].
    apply preserves_bind; [apply preserves_with_memory|]. intros _.
    apply preserves_bind; [apply preserves_optimize_model|]. intros _.
    destruct done; [apply preserves_pure | apply IH].
Qed.

Lemma preserves_run_steps (fuel : nat) (c : Config) (steps_done : Z) :
  preserves step_frame (run_steps fuel c steps_done).
Proof.
  unfold run_steps. apply preserves_bind; [apply preserves_with_env|].
  intros st. apply preserves_episode_steps.
Qed.

Variable Inv : World -> Prop.
Variable fuel : nat.
Variable cfg : Config.
Variable store_step : Z.

Hypothesis Hstep : store_step <> 0%Z.
Hypothesis Hperiod : update_tgt cfg <> 0%Z.
Hypothesis Inv_frame : forall w w', Inv w -> sync_frame w w' -> Inv w'.
Hypothesis Inv_steps :
  forall w steps_done, Inv w ->
    exists r w1, run_steps fuel cfg steps_done w = (Ok r, w1) /\ Inv w1.

(** Under an invariant that lets every episode run to its end, the loop
    completes and saves exactly at the indices the step divides. *)
Lemma episodes_complete (n : nat) :
  forall i steps_done durations w,
    Inv w ->
    exists ds w' new,
      episodes fuel cfg store_step n i steps_done durations w = (Ok ds, w') /\
      length ds = length durations + n /\
      saves w' = saves w ++ new /\
      map fst new = stretch store_step i n /\
      Forall (fun s => saved_config (snd s) = cfg) new.
Proof.
  induction n as [|n IH]; intros i sd ds w HI.
  - exists ds, w, []. simpl. unfold ret.
    repeat split; auto. rewrite app_nil_r. reflexivity.
  - cbn [episodes]. unfold bind at 1. unfold episode, bind at 1.
    destruct (Inv_steps sd HI) as ([sd' d] & w1 & Hrun & HI1).
    rewrite Hrun. unfold bind at 1.
    destruct (@target_sync_spec cfg i w1 Hperiod) as (w2 & Hsync & Hfr & Hsv & _).
    rewrite Hsync. unfold bind at 1.
    rewrite checkpoint_spec by exact Hstep. unfold ret at 1.
    set (w3 := if ((i + 1) mod store_step =? 0)%Z
               then with_save cfg (i + 1)%Z w2 else w2).
    assert (Hfr3 : sync_frame w1 w3).
    { apply sync_frame_trans with (w2 := w2); [exact Hfr|].
      subst w3. destruct ((i + 1) mod store_step =? 0)%Z;
        [unfold sync_frame; simpl; auto | apply sync_frame_refl]. }
    assert (HI3 : Inv w3) by (eapply Inv_frame; eauto).
    destruct (IH (i + 1)%Z sd' (ds ++ [d]) w3 HI3)
      as (ds' & w' & new & Hep & Hlen & Hsaves & Hkeys & Hcfg).
    exists ds', w'.
    exists ((if ((i + 1) mod store_step =? 0)%Z
             then [((i + 1)%Z, mkSaved cfg (policy_net w2) (optimizer w2))]
             else []) ++ new).
    split; [exact Hep|]. split.
    { rewrite Hlen, length_app. simpl. lia. }
    split.
    { rewrite Hsaves. subst w3.
      destruct (preserves_run_steps fuel cfg sd w) as (_ & Hs1).
      rewrite Hrun in Hs1. simpl in Hs1.
      destruct ((i + 1) mod store_step =? 0)%Z; simpl.
      - rewrite Hsv, Hs1, <- app_assoc. reflexivity.
      - rewrite Hsv, Hs1. reflexivity. }
    split.
    { rewrite stretch_S, map_app, Hkeys.
      destruct ((i + 1) mod store_step =? 0)%Z; reflexivity. }
    apply Forall_app. split; [|exact Hcfg].
    destruct ((i + 1) mod store_step =? 0)%Z; repeat constructor.
Qed.

End LoopFacts.

(** ** Arithmetic of the checkpoint cadence *)

Lemma cadence_In (store_step : Z) (n : nat) (k : Z) :
  In k (cadence store_step n) <->
  (1 <= k <= Z.of_nat n)%Z /\ (k mod store_step)%Z = 0%Z.
Proof.
  unfold cadence. rewrite filter_In, in_map_iff, Z.eqb_eq.
  split.
  - intros [(j & <- & Hj) Hm]. apply in_seq in Hj. split; [lia | exact Hm].
  - intros [Hk Hm]. split; [|exact Hm].
    exists (Z.to_nat k). split; [lia|]. apply in_seq. lia.
Qed.

Lemma div_succ (s N : Z) :
  (0 < s)%Z -> (0 <= N)%Z ->
  ((N + 1) / s = N / s + (if (N + 1) mod s =? 0 then 1 else 0))%Z.
Proof.
  intros Hs HN.
  pose proof (Z.div_mod (N + 1) s ltac:(lia)) as Hdm.
  pose proof (Z.mod_pos_bound (N + 1) s Hs) as Hb.
  destruct ((N + 1) mod s =? 0)%Z eqn:E.
  - apply Z.eqb_eq in E.
    assert (H : (N / s = (N + 1) / s - 1)%Z).
    { symmetry. apply Z.div_unique with (r := (s - 1)%Z); [lia|]. nia. }
    lia.
  - apply Z.eqb_neq in E.
    assert (H : (N / s = (N + 1) / s)%Z).
    { symmetry. apply Z.div_unique with (r := ((N + 1) mod s - 1)%Z); [lia|]. nia. }
    lia.
Qed.

Lemma cadence_length (store_step : Z) (n : nat) :
  (0 < store_step)%Z ->
  Z.of_nat (length (cadence store_step n)) = (Z.of_nat n / store_step)%Z.
Proof.
  intros Hs. induction n as [|n IH].
  - simpl. rewrite Z.div_0_l by lia. reflexivity.
  - unfold cadence in *. rewrite seq_S, map_app, filter_app, length_app.
    replace (map Z.of_nat [1 + n]) with [(Z.of_nat n + 1)%Z]
      by (cbn [map]; f_equal; lia).
    cbn [filter]. rewrite Nat2Z.inj_add, IH.
    replace (Z.of_nat (S n)) with (Z.of_nat n + 1)%Z by lia.
    rewrite (div_succ Hs) by lia.
    destruct ((Z.of_nat n + 1) mod store_step =? 0)%Z; reflexivity.
Qed.

Section Run.

Context {net : Net} {environment : Env}.

Lemma rl_setup_ok (w : World) :
  fst (rl_setup w) = Ok tt /\ saves (snd (rl_setup w)) = saves w /\
  target_net (snd (rl_setup w)) = policy_net (snd (rl_setup w)).
Proof. repeat split. Qed.

(** C8.  In a run with [1 <= store <= epi_num] whose episodes all run to
    their end, [rl_process] completes its [epi_num] episodes and calls
    [torch.save] exactly for the 1-based episode indices that
    [int(epi_num / store)] divides, in order, each time with the config,
    the policy parameters and the optimiser state of that moment; when
    [store] divides [epi_num] these are [store] calls, and no episode
    after the last full group of [int(epi_num / store)] is saved. *)
Theorem checkpoint_cadence (Inv : World -> Prop) (fuel : nat) (cfg : Config)
    (w0 : World) :
  (1 <= store cfg <= epi_num cfg)%Z ->
  update_tgt cfg <> 0%Z ->
  (forall w w', Inv w -> sync_frame w w' -> Inv w') ->
  (forall w steps_done, Inv w ->
     exists r w1, run_steps fuel cfg steps_done w = (Ok r, w1) /\ Inv w1) ->
  Inv (snd (rl_setup w0)) ->
  let store_step := (epi_num cfg ÷ store cfg)%Z in
  exists durations w' new,
    rl_process fuel cfg w0 = (Ok durations, w') /\
    Z.of_nat (length durations) = epi_num cfg /\
    saves w' = saves w0 ++ new /\
    map fst new = cadence store_step (Z.to_nat (epi_num cfg)) /\
    Forall (fun s => saved_config (snd s) = cfg) new /\
    (forall k, In k (map fst new) <->
               (1 <= k <= epi_num cfg)%Z /\ (k mod store_step)%Z = 0%Z) /\
    ((store cfg | epi_num cfg)%Z -> Z.of_nat (length new) = store cfg) /\
    (forall k, (store_step * (epi_num cfg / store_step) < k)%Z ->
               ~ In k (map fst new)) /\
    (forall i w, ((i + 1) mod store_step)%Z = 0%Z ->
       checkpoint cfg store_step i w =
         (Ok tt, with_save cfg (i + 1)%Z w)).
Proof.
  intros Hstore Hperiod Hframe Hsteps Hinit store_step.
  assert (Hquot : store_step = (epi_num cfg / store cfg)%Z)
    by (subst store_step; apply Z.quot_div_nonneg; lia).
  assert (Hpos : (1 <= store_step)%Z).
  { rewrite Hquot. apply Z.div_le_lower_bound; lia. }
  assert (Hne : store_step <> 0%Z) by lia.
  destruct (@episodes_complete _ _ Inv fuel cfg store_step Hne Hperiod
              Hframe Hsteps (Z.to_nat (epi_num cfg)) 0%Z 0%Z []
              (snd (rl_setup w0)) Hinit)
    as (ds & w' & new & Hrun & Hlen & Hsaves & Hkeys & Hcfg).
  rewrite stretch_0 in Hkeys.
  exists ds, w', new.
  split.
  { unfold rl_process, bind at 1.
    destruct (rl_setup w0) as [r w1] eqn:E.
    pose proof (rl_setup_ok w0) as (Hr & _). rewrite E in Hr. simpl in Hr.
    subst r. unfold bind, lift_result, py_int_truediv.
    replace (store cfg =? 0)%Z with false by (symmetry; apply Z.eqb_neq; lia).
    exact Hrun. }
  split; [simpl in Hlen; lia|].
  split; [rewrite Hsaves; reflexivity|].
  split; [exact Hkeys|]. split; [exact Hcfg|].
  split.
  { intros k. rewrite Hkeys, cadence_In. rewrite Z2Nat.id by lia. reflexivity. }
  split.
  { intros [q Hq].
    rewrite <- (length_map fst), Hkeys, cadence_length by lia.
    rewrite Z2Nat.id by lia.
    assert (Hss : store_step = q).
    { rewrite Hquot, Hq. apply Z.div_mul. lia. }
    rewrite Hss, Hq. rewrite Z.mul_comm. apply Z.div_mul. lia. }
  split.
  { intros k Hk Hin. rewrite Hkeys in Hin. apply cadence_In in Hin.
    destruct Hin as [Hrange Hmod]. rewrite Z2Nat.id in Hrange by lia.
    assert (Hkdiv : k = (store_step * (k / store_step))%Z).
    { pose proof (Z.div_mod k store_step Hne). lia. }
    assert (Hle : (k / store_step <= epi_num cfg / store_step)%Z)
      by (apply Z.div_le_mono; lia).
    nia. }
  intros i w Hmod. rewrite checkpoint_spec by exact Hne.
  rewrite Hmod. reflexivity.
Qed.

(** At the end of an episode whose index the period divides, the target
    network has the parameters of the policy network. *)
Lemma episode_syncs (fuel : nat) (cfg : Config) (store_step i steps_done : Z)
    (w w' : World) (r : Z * Z) :
  update_tgt cfg <> 0%Z -> (i mod update_tgt cfg)%Z = 0%Z ->
  episode fuel cfg store_step i steps_done w = (Ok r, w') ->
  target_net w' = policy_net w'.
Proof.
  intros Hu Hi. unfold episode, bind at 1.
  destruct (run_steps fuel cfg steps_done w) as [[r1|e] w1]; [|discriminate].
  unfold bind at 1.
  destruct (@target_sync_spec _ _ cfg i w1 Hu) as (w2 & Hsync & Hfr & _ & Ht & _).
  rewrite Hsync. specialize (Ht Hi).
  destruct Hfr as (_ & _ & Hp & _).
  unfold bind at 1.
  destruct (Z.eq_dec store_step 0) as [->|Hs].
  - rewrite checkpoint_zero_step. discriminate.
  - rewrite checkpoint_spec by exact Hs. unfold ret.
    intros H; inversion H; subst.
    destruct ((i + 1) mod store_step =? 0)%Z; simpl; congruence.
Qed.

End Run.


Section Abort.

Context {net : Net} {environment : Env}.

(** C6.  The target test at the end of episode [i] (period not 0) copies
    the policy parameters into the target network exactly when the period
    divides [i], in particular for episode 0; right after the copy, and
    still at the end of that episode, both networks have the same
    parameters and so the same output on every state.  The copy changes
    nothing else. *)
Theorem target_sync_copies (cfg : Config) (i : Z) (w : World) :
  update_tgt cfg <> 0%Z ->
  ((i mod update_tgt cfg)%Z = 0%Z ->
   exists w',
     target_sync cfg i w = (Ok tt, w') /\
     target_net w' = policy_net w /\
     policy_net w' = policy_net w /\
     (forall st, forward (target_net w') st = forward (policy_net w') st) /\
     sync_frame w w' /\ saves w' = saves w) /\
  ((i mod update_tgt cfg)%Z <> 0%Z -> target_sync cfg i w = (Ok tt, w)) /\
  (exists w',
     target_sync cfg 0 w = (Ok tt, w') /\ target_net w' = policy_net w') /\
  (forall fuel store_step steps_done r w',
     (i mod update_tgt cfg)%Z = 0%Z ->
     episode fuel cfg store_step i steps_done w = (Ok r, w') ->
     target_net w' = policy_net w' /\
     forall st, forward (target_net w') st = forward (policy_net w') st).
Proof.
  intros Hu. split; [|split; [|split]].
  - intros Hi.
    destruct (@target_sync_spec _ _ cfg i w Hu) as (w' & Hs & Hfr & Hsv & Ht & _).
    exists w'. specialize (Ht Hi).
    pose proof Hfr as (_ & _ & Hp & _).
    repeat split; auto; try apply Hfr.
    intros st. rewrite Ht, Hp. reflexivity.
  - intros Hi.
    destruct (@target_sync_spec _ _ cfg i w Hu) as (w' & Hs & _ & _ & _ & Hsame).
    rewrite Hs, (Hsame Hi). reflexivity.
  - destruct (@target_sync_spec _ _ cfg 0%Z w Hu) as (w' & Hs & Hfr & _ & Ht & _).
    exists w'. split; [exact Hs|].
    destruct Hfr as (_ & _ & Hp & _).
    rewrite Ht, Hp; [reflexivity | apply Zmod_0_l].
  - intros fuel store_step sd r w' Hi Hep.
    pose proof (@episode_syncs _ _ fuel cfg store_step i sd w w' r Hu Hi Hep) as Heq.
    split; [exact Heq|]. intros st. rewrite Heq. reflexivity.
Qed.

(** With a zero step, an episode never ends well. *)
Lemma episodes_zero_step (fuel : nat) (cfg : Config) (n : nat)
    (i steps_done : Z) (durations : list Z) (w : World) :
  exists e, fst (episodes fuel cfg 0 (S n) i steps_done durations w) = Raise e.
Proof.
  cbn [episodes]. unfold bind at 1. unfold episode, bind at 1.
  destruct (run_steps fuel cfg steps_done w) as [[r1|e] w1];
    [|simpl; eauto].
  unfold bind at 1.
  destruct (target_sync cfg i w1) as [[[]|e] w2]; [|simpl; eauto].
  unfold bind at 1. rewrite checkpoint_zero_step. simpl. eauto.
Qed.

(** C10.  With [1 <= epi_num < store] the step [int(epi_num / store)] is 0;
    if the period of the target test is not 0 and the first episode runs
    to its end, [rl_process] raises [ZeroDivisionError] at the checkpoint
    test of that episode, after the target copy and with nothing saved.
    With [epi_num >= 1] and [store >= 1], a run that completes has
    [int(epi_num / store) >= 1]. *)
Theorem zero_store_step_aborts (fuel : nat) (cfg : Config) (w0 : World) :
  ((1 <= epi_num cfg < store cfg)%Z ->
   update_tgt cfg <> 0%Z ->
   (exists r w1, run_steps fuel cfg 0 (snd (rl_setup w0)) = (Ok r, w1)) ->
   (epi_num cfg ÷ store cfg)%Z = 0%Z /\
   exists w',
     rl_process fuel cfg w0 = (Raise ZeroDivisionError, w') /\
     saves w' = saves w0 /\ target_net w' = policy_net w') /\
  ((1 <= epi_num cfg)%Z -> (1 <= store cfg)%Z ->
   forall durations w',
     rl_process fuel cfg w0 = (Ok durations, w') ->
     (1 <= epi_num cfg ÷ store cfg)%Z).
Proof.
  split.
  - intros Hrange Hu (r & w1 & Hrun).
    assert (Hq : (epi_num cfg ÷ store cfg)%Z = 0%Z)
      by (apply Z.quot_small; lia).
    split; [exact Hq|].
    unfold rl_process, bind at 1.
    destruct (rl_setup w0) as [r0 ws] eqn:E.
    pose proof (rl_setup_ok w0) as (Hr & Hsv & _). rewrite E in Hr, Hsv.
    simpl in Hr, Hsv, Hrun. subst r0.
    unfold bind at 1. unfold lift_result, py_int_truediv.
    replace (store cfg =? 0)%Z with false by (symmetry; apply Z.eqb_neq; lia).
    rewrite Hq.
    destruct (Z.to_nat (epi_num cfg)) as [|n] eqn:En; [lia|].
    cbn [episodes]. unfold bind at 1. unfold episode, bind at 1.
    rewrite Hrun. unfold bind at 1.
    destruct (@target_sync_spec _ _ cfg 0%Z w1 Hu) as (w2 & Hs & Hfr & Hsv2 & Ht & _).
    rewrite Hs. unfold bind at 1. rewrite checkpoint_zero_step.
    exists w2. split; [reflexivity|].
    destruct (preserves_run_steps fuel cfg 0%Z ws) as (_ & Hs1).
    rewrite Hrun in Hs1. simpl in Hs1.
    destruct Hfr as (_ & _ & Hp & _).
    split; [congruence|]. rewrite Ht, Hp; [reflexivity | apply Zmod_0_l].
  - intros Hepi Hstore ds w' Hrun.
    destruct (Z.eq_dec (epi_num cfg ÷ store cfg) 0) as [Hq|Hq].
    + exfalso. revert Hrun. unfold rl_process, bind at 1.
      destruct (rl_setup w0) as [r0 ws] eqn:E.
      pose proof (rl_setup_ok w0) as (Hr & _). rewrite E in Hr.
      simpl in Hr. subst r0.
      unfold bind at 1. unfold lift_result, py_int_truediv.
      replace (store cfg =? 0)%Z with false by (symmetry; apply Z.eqb_neq; lia).
      rewrite Hq.
      destruct (Z.to_nat (epi_num cfg)) as [|n] eqn:En; [lia|].
      destruct (episodes_zero_step fuel cfg n 0%Z 0%Z [] ws) as (e & He).
      intros Hrun. rewrite Hrun in He. discriminate.
    + pose proof (Z.quot_pos (epi_num cfg) (store cfg) ltac:(lia) ltac:(lia)).
      lia.
Qed.

End Abort.

(** ** The toy run *)

Lemma toy_select_action (p : Q) (steps_done : Z) (g : random.state) :
  exists a g',
    @select_action toy_net toy_state steps_done p g =
      (Ok (a, (steps_done + 1)%Z), g').
Proof.
  unfold select_action. destruct (random.random g) as [u g1].
  destruct (Rgt_dec u (eps_threshold steps_done)).
  - simpl. eauto.
  - change (feasibility_row toy_state) with (@Ok (list Q) [1%Q; 0%Q]).
    change (torch_nonzero [1%Q; 0%Q]) with [0].
    unfold random.randrange. simpl Z.leb.
    destruct (random.next g1) as [r g2].
    rewrite Z.mod_1_r. simpl. eauto.
Qed.

Lemma toy_run_steps (fuel : nat) (cfg : Config) (steps_done : Z)
    (w : @World toy_net toy_env) :
  batch cfg = 20000%Z -> toy_inv w ->
  exists r w1,
    @run_steps toy_net toy_env (S fuel) cfg steps_done w = (Ok r, w1) /\
    toy_inv w1.
Proof.
  intros Hb (hist & Hinv).
  unfold run_steps, bind at 1. unfold with_env at 1. simpl env_reset.
  cbn [episode_steps]. unfold bind at 1, get at 1.
  unfold bind at 1, with_rng at 1. cbn [rng policy_net].
  destruct (toy_select_action (policy_net w) steps_done (rng w))
    as (a & g' & Hsel).
  rewrite Hsel.
  unfold bind at 1, with_env at 1. simpl env_step. cbn [env].
  unfold bind at 1, with_memory at 1. cbn [memory].
  destruct (@push_ring_inv _ 10000%Z hist (memory w)
              (mkTransition toy_state a None 1%Q) ltac:(lia) Hinv)
    as (m' & Hpush & Hinv' & _).
  rewrite Hpush.
  unfold bind at 1.
  rewrite (@optimize_model_skip toy_net toy_env).
  - unfold ret. eexists. eexists. split; [reflexivity|].
    eexists. exact Hinv'.
  - cbn [memory]. rewrite Hb.
    destruct Hinv' as (_ & _ & Hlen & _).
    unfold ReplayMemory.len. rewrite Hlen. lia.
Qed.

Lemma toy_inv_frame (w w' : @World toy_net toy_env) :
  toy_inv w -> sync_frame w w' -> toy_inv w'.
Proof.
  intros (hist & H) (_ & _ & _ & _ & Hm). exists hist. rewrite Hm. exact H.
Qed.

Lemma toy_inv_setup (w : @World toy_net toy_env) : toy_inv (snd (rl_setup w)).
Proof. exists []. apply ring_inv_init. Qed.

Lemma target_sync_copies_witness :
  update_tgt toy_config <> 0%Z /\
  (0 mod update_tgt toy_config)%Z = 0%Z /\
  target_net unsynced_world <> policy_net unsynced_world /\
  exists w',
    target_sync toy_config 0 unsynced_world = (Ok tt, w') /\
    target_net w' = 2%Q.
Proof.
  assert (Hu : update_tgt toy_config <> 0%Z) by (vm_compute; discriminate).
  split; [exact Hu|]. split; [reflexivity|].
  split; [vm_compute; discriminate|].
  destruct (proj1 (@target_sync_copies toy_net toy_env toy_config 0%Z
                     unsynced_world Hu) eq_refl)
    as (w' & Hs & Ht & _).
  exists w'. split; [exact Hs | exact Ht].
Defined.

Lemma checkpoint_cadence_witness :
  (1 <= store toy_config <= epi_num toy_config)%Z /\
  update_tgt toy_config <> 0%Z /\
  exists durations w',
    @rl_process toy_net toy_env 1 toy_config (toy_world []) =
      (Ok durations, w') /\
    Z.of_nat (length durations) = 4%Z /\
    map fst (saves w') = [2%Z; 4%Z].
Proof.
  assert (Hs : (1 <= store toy_config <= epi_num toy_config)%Z)
    by (vm_compute; split; discriminate).
  assert (Hu : update_tgt toy_config <> 0%Z) by (vm_compute; discriminate).
  split; [exact Hs|]. split; [exact Hu|].
  destruct (@checkpoint_cadence toy_net toy_env toy_inv 1 toy_config
              (toy_world []) Hs Hu toy_inv_frame
              (fun w sd => @toy_run_steps 0 toy_config sd w eq_refl)
              (toy_inv_setup (toy_world [])))
    as (ds & w' & new & Hrun & Hlen & Hsaves & Hkeys & _).
  exists ds, w'. split; [exact Hrun|]. split; [exact Hlen|].
  rewrite Hsaves. simpl. exact Hkeys.
Defined.

Lemma zero_store_step_aborts_witness :
  (1 <= epi_num short_config < store short_config)%Z /\
  update_tgt short_config <> 0%Z /\
  exists w',
    @rl_process toy_net toy_env 1 short_config (toy_world []) =
      (Raise ZeroDivisionError, w') /\
    saves w' = [].
Proof.
  assert (Hs : (1 <= epi_num short_config < store short_config)%Z)
    by (vm_compute; split; [discriminate | reflexivity]).
  assert (Hu : update_tgt short_config <> 0%Z) by (vm_compute; discriminate).
  split; [exact Hs|]. split; [exact Hu|].
  destruct (proj1 (@zero_store_step_aborts toy_net toy_env 1 short_config
                     (toy_world [])) Hs Hu) as (_ & w' & Hrun & Hsv & _).
  - destruct (@toy_run_steps 0 short_config 0%Z
                (snd (rl_setup (toy_world []))) eq_refl
                (toy_inv_setup (toy_world []))) as (r & w1 & Hr & _).
    exists r, w1. exact Hr.
  - exists w'. split; [exact Hrun | exact Hsv].
Defined.

(** With no episode to run, [store] exceeds [epi_num] and the step is 0,
    yet [rl_process] completes: the checkpoint test is never reached. *)
Lemma zero_episodes_complete :
  (epi_num idle_config < store idle_config)%Z /\
  (epi_num idle_config ÷ store idle_config)%Z = 0%Z /\
  fst (@rl_process toy_net toy_env 1 idle_config (toy_world [])) = Ok [].
Proof.
  split; [reflexivity|]. split; reflexivity.
Qed.

(* ================================================================== *)
(** * Part III: further properties of the code                         *)
(* ================================================================== *)

(** ** Replay memory: edge cases *)

(** X1.  On a memory created with a capacity of 0 or less, every
    non-empty sequence of pushes stops at its first push with
    [IndexError]; nothing is stored and the cursor stays 0. *)
Theorem push_nonpositive_capacity (T : Type) (C : Z) (x : T) (xs : list T) :
  (C <= 0)%Z ->
  ReplayMemory.push x (ReplayMemory.init T C) =
    (Raise IndexError, ReplayMemory.init T C) /\
  ReplayMemory.push_all (x :: xs) (ReplayMemory.init T C) =
    (Raise IndexError, ReplayMemory.init T C) /\
  ReplayMemory.len (ReplayMemory.init T C) = 0%Z.
Proof.
  intros HC.
  assert (Hpush : ReplayMemory.push x (ReplayMemory.init T C) =
                  (Raise IndexError, ReplayMemory.init T C)).
  { unfold ReplayMemory.push, ReplayMemory.init, ReplayMemory.len. simpl.
    replace (0 <? C)%Z with false by (symmetry; apply Z.ltb_ge; exact HC).
    reflexivity. }
  split; [exact Hpush|]. split; [|reflexivity].
  simpl. unfold bind. rewrite Hpush. reflexivity.
Qed.

Lemma push_nonpositive_capacity_witness :
  (0 <= 0)%Z /\
  ReplayMemory.push_all [1; 2] (ReplayMemory.init nat 0) =
    (Raise IndexError, ReplayMemory.init nat 0).
Proof.
  split; [lia|].
  apply (proj1 (proj2 (@push_nonpositive_capacity nat 0 1 [2] ltac:(lia)))).
Defined.

Section MoreSampling.

Context {net : Net} {environment : Env}.

(** X2.  [memory.sample(len(memory))] returns the whole buffer, every
    slot once, in some order, and leaves the buffer as it was. *)
Theorem sample_whole_memory (w : World) :
  exists l w',
    memory_sample (ReplayMemory.len (memory w)) w = (Ok l, w') /\
    Permutation l (ReplayMemory.memory (memory w)) /\
    memory w' = memory w.
Proof.
  unfold memory_sample, bind, get, with_rng, ReplayMemory.sample,
    random.sample, ReplayMemory.len.
  set (mem := ReplayMemory.memory (memory w)).
  replace ((0 <=? Z.of_nat (length mem)) &&
           (Z.of_nat (length mem) <=? Z.of_nat (length mem)))%Z with true
    by (symmetry; apply andb_true_iff; split; apply Z.leb_le; lia).
  rewrite Nat2Z.id.
  destruct (@sample_pool_permutation _ (length mem) mem (rng w) (le_n _))
    as (Hlen & rest & Hperm).
  destruct (random.sample_pool mem (length mem) (rng w)) as [l g'].
  simpl in *. exists l. eexists. split; [reflexivity|].
  split; [|reflexivity].
  assert (Hrest : rest = []).
  { apply Permutation_length in Hperm. rewrite length_app in Hperm.
    destruct rest; [reflexivity | simpl in Hperm; lia]. }
  subst rest. rewrite app_nil_r in Hperm. exact Hperm.
Qed.

(** X3.  [optimize_model] with a batch size of 0 raises [TypeError] (the
    transposition of an empty batch has no columns) and with a negative
    batch size raises [ValueError] (from [random.sample]); in both cases
    the world is left as it was: no draw, no update. *)
Theorem optimize_model_nonpositive_batch (batch_size : Z) (w : World) :
  (batch_size <= 0)%Z ->
  optimize_model batch_size w =
    (Raise (if (batch_size =? 0)%Z then TypeError else ValueError), w).
Proof.
  intros Hb. unfold optimize_model, bind at 1. unfold get at 1.
  assert (Hlen : (0 <= ReplayMemory.len (memory w))%Z)
    by (unfold ReplayMemory.len; lia).
  replace (ReplayMemory.len (memory w) <? batch_size)%Z with false
    by (symmetry; apply Z.ltb_ge; lia).
  unfold bind at 1.
  unfold memory_sample, bind at 1, get, with_rng, ReplayMemory.sample,
    random.sample.
  destruct (batch_size =? 0)%Z eqn:E.
  - apply Z.eqb_eq in E. subst batch_size.
    replace ((0 <=? 0) &&
             (0 <=? Z.of_nat (length (ReplayMemory.memory (memory w)))))%Z
      with true
      by (symmetry; apply andb_true_iff; split; apply Z.leb_le; lia).
    simpl. rewrite world_eta. reflexivity.
  - apply Z.eqb_neq in E.
    replace (0 <=? batch_size)%Z with false
      by (symmetry; apply Z.leb_gt; lia).
    simpl. rewrite world_eta. reflexivity.
Qed.

End MoreSampling.

Lemma optimize_model_nonpositive_batch_witness :
  (0 <= 0)%Z /\ (-1 <= 0)%Z /\
  optimize_model 0 (toy_world [running_transition]) =
    (Raise TypeError, toy_world [running_transition]) /\
  optimize_model (-1) (toy_world [running_transition]) =
    (Raise ValueError, toy_world [running_transition]).
Proof.
  split; [lia|]. split; [lia|]. split.
  - apply (@optimize_model_nonpositive_batch toy_net toy_env 0%Z). lia.
  - apply (@optimize_model_nonpositive_batch toy_net toy_env (-1)%Z). lia.
Defined.

(** ** Action selection: edge cases *)

Lemma eps_threshold_pos (n : Z) : (0 < eps_threshold n)%R.
Proof.
  rewrite eps_threshold_eq.
  pose proof (exp_pos (- IZR n / 200)). lra.
Qed.

Lemma random_toy_rng (n : Z) :
  ~ (fst (random.random toy_rng) > eps_threshold n)%R.
Proof.
  assert (E : fst (random.random toy_rng) = (IZR 0 / IZR 9007199254740992)%R)
    by reflexivity.
  rewrite E. pose proof (@eps_threshold_pos n). lra.
Qed.

(** X4.  When [select_action] explores, a state whose feasibility row
    has no nonzero entry makes it raise [ValueError] (from
    [randrange(0)]), and a state with fewer than two rows makes it raise
    [IndexError]; one draw has been consumed and no action is returned. *)
Theorem select_action_no_feasible_action (net : Net) (st : state)
    (steps_done : Z) (policy : params) (g : random.state) :
  ~ (fst (random.random g) > eps_threshold steps_done)%R ->
  (forall row, feasibility_row st = Ok row -> torch_nonzero row = [] ->
     select_action st steps_done policy g =
       (Raise ValueError, snd (random.random g))) /\
  (length st < 2 ->
     select_action st steps_done policy g =
       (Raise IndexError, snd (random.random g))).
Proof.
  intros Hu. unfold select_action.
  destruct (random.random g) as [u g1]. simpl in *.
  destruct (Rgt_dec u (eps_threshold steps_done)); [contradiction|].
  split.
  - intros row Hrow Hnz. rewrite Hrow, Hnz. reflexivity.
  - intros Hlen.
    assert (Hrow : feasibility_row st = Raise IndexError).
    { unfold feasibility_row, getitem, py_index.
      destruct st as [|r1 [|r2 rest]]; simpl in *; try lia; reflexivity. }
    rewrite Hrow. reflexivity.
Qed.

Lemma select_action_no_feasible_action_witness :
  ~ (fst (random.random toy_rng) > eps_threshold 0)%R /\
  @select_action toy_net [[0%Q; 0%Q]; [1%Q; 1%Q]] 0 1%Q toy_rng =
    (Raise ValueError, snd (random.random toy_rng)) /\
  @select_action toy_net [[1%Q; 1%Q]] 0 1%Q toy_rng =
    (Raise IndexError, snd (random.random toy_rng)).
Proof.
  split; [apply (@random_toy_rng 0%Z)|].
  pose proof (@select_action_no_feasible_action toy_net
                [[0%Q; 0%Q]; [1%Q; 1%Q]] 0 1%Q toy_rng (@random_toy_rng 0%Z))
    as [H1 _].
  pose proof (@select_action_no_feasible_action toy_net
                [[1%Q; 1%Q]] 0 1%Q toy_rng (@random_toy_rng 0%Z))
    as [_ H2].
  split.
  - apply (H1 [0%Q; 0%Q]); reflexivity.
  - apply H2. simpl. lia.
Defined.

(** ** The training loop: what it keeps and how it fails *)

Section MoreLoop.

Context {net : Net} {environment : Env}.

(** X5.  The interaction of an episode (action selection, environment
    step, push, optimisation step, repeated until done) never writes the
    target network or the saved files, whether it ends, raises or is cut
    off. *)
Theorem run_steps_keeps_target (fuel : nat) (cfg : Config) (steps_done : Z)
    (w : World) :
  target_net (snd (run_steps fuel cfg steps_done w)) = target_net w /\
  saves (snd (run_steps fuel cfg steps_done w)) = saves w.
Proof. apply preserves_run_steps. Qed.

(** X6.  With [store = 0], [rl_process] raises [ZeroDivisionError] when
    it computes the checkpoint step, after the set-up and before the
    first episode: the environment is not reset and nothing is pushed or
    saved. *)
Theorem rl_process_store_zero (fuel : nat) (cfg : Config) (w0 : World) :
  store cfg = 0%Z ->
  rl_process fuel cfg w0 = (Raise ZeroDivisionError, snd (rl_setup w0)) /\
  env (snd (rl_setup w0)) = env w0 /\
  rng (snd (rl_setup w0)) = rng w0 /\
  saves (snd (rl_setup w0)) = saves w0 /\
  ReplayMemory.len (memory (snd (rl_setup w0))) = 0%Z.
Proof.
  intros Hs. split; [|repeat split].
  unfold rl_process, bind at 1.
  destruct (rl_setup w0) as [r ws] eqn:E.
  pose proof (rl_setup_ok w0) as (Hr & _). rewrite E in Hr. simpl in Hr.
  subst r. unfold bind, lift_result, py_int_truediv. rewrite Hs. reflexivity.
Qed.

(** X7.  With [update_tgt = 0], at least one episode to run and a
    nonzero [store], [rl_process] raises [ZeroDivisionError] at the
    target test that ends the first episode, provided that episode runs
    to its end; nothing has been saved and the target network is still
    the copy made at set-up. *)
Theorem rl_process_update_tgt_zero (fuel : nat) (cfg : Config) (w0 : World)
    (r : Z * Z) (w1 : World) :
  update_tgt cfg = 0%Z -> (1 <= epi_num cfg)%Z -> store cfg <> 0%Z ->
  run_steps fuel cfg 0 (snd (rl_setup w0)) = (Ok r, w1) ->
  rl_process fuel cfg w0 = (Raise ZeroDivisionError, w1) /\
  saves w1 = saves w0 /\
  target_net w1 = policy_net w0.
Proof.
  intros Hu Hepi Hstore Hrun.
  destruct (preserves_run_steps fuel cfg 0%Z (snd (rl_setup w0))) as (Ht & Hs).
  rewrite Hrun in Ht, Hs. simpl in Ht, Hs.
  split; [|split; [rewrite Hs; reflexivity | rewrite Ht; reflexivity]].
  unfold rl_process, bind at 1.
  destruct (rl_setup w0) as [r0 ws] eqn:E.
  pose proof (rl_setup_ok w0) as (Hr & _). rewrite E in Hr.
  simpl in Hr, Hrun. subst r0.
  unfold bind at 1. unfold lift_result, py_int_truediv.
  replace (store cfg =? 0)%Z with false by (symmetry; apply Z.eqb_neq; lia).
  destruct (Z.to_nat (epi_num cfg)) as [|n] eqn:En; [lia|].
  cbn [episodes]. unfold bind at 1. unfold episode, bind at 1.
  rewrite Hrun. unfold bind at 1.
  unfold target_sync, bind at 1, lift_result, py_mod. rewrite Hu.
  reflexivity.
Qed.

Lemma target_sync_saves (cfg : Config) (i : Z) (w : World) :
  saves (snd (target_sync cfg i w)) = saves w.
Proof.
  unfold target_sync, bind, lift_result, py_mod.
  destruct (update_tgt cfg =? 0)%Z; [reflexivity|].
  destruct (i mod update_tgt cfg =? 0)%Z; reflexivity.
Qed.

(** Whatever way the loop ends, what it saved is a prefix of the saves
    of the complete loop. *)
Lemma episodes_saves_prefix (fuel : nat) (cfg : Config) (store_step : Z)
    (n : nat) :
  forall i steps_done durations w,
    exists new rest,
      saves (snd (episodes fuel cfg store_step n i steps_done durations w)) =
        saves w ++ new /\
      map fst new ++ rest = stretch store_step i n /\
      Forall (fun s => saved_config (snd s) = cfg) new.
Proof.
  induction n as [|n IH]; intros i sd ds w.
  - exists [], []. simpl. rewrite app_nil_r. auto.
  - cbn [episodes]. unfold bind at 1. unfold episode, bind at 1.
    destruct (preserves_run_steps fuel cfg sd w) as (_ & Hs1).
    destruct (run_steps fuel cfg sd w) as [[[sd' d]|e] w1]; simpl in Hs1;
      [|exists [], (stretch store_step i (S n)); simpl;
        rewrite Hs1, app_nil_r; auto].
    unfold bind at 1.
    pose proof (target_sync_saves cfg i w1) as Hs2.
    destruct (target_sync cfg i w1) as [[[]|e] w2]; simpl in Hs2;
      [|exists [], (stretch store_step i (S n)); simpl;
        rewrite Hs2, Hs1, app_nil_r; auto].
    unfold bind at 1.
    destruct (Z.eq_dec store_step 0) as [->|Hne].
    + rewrite checkpoint_zero_step.
      exists [], (stretch 0 i (S n)). simpl.
      rewrite Hs2, Hs1, app_nil_r. auto.
    + rewrite checkpoint_spec by exact Hne. unfold ret at 1.
      set (w3 := if ((i + 1) mod store_step =? 0)%Z
                 then with_save cfg (i + 1)%Z w2 else w2).
      destruct (IH (i + 1)%Z sd' (ds ++ [d]) w3)
        as (new & rest & Hsaves & Hkeys & Hcfg).
      exists ((if ((i + 1) mod store_step =? 0)%Z
               then [((i + 1)%Z, mkSaved cfg (policy_net w2) (optimizer w2))]
               else []) ++ new), rest.
      split; [|split].
      * rewrite Hsaves. subst w3.
        destruct ((i + 1) mod store_step =? 0)%Z; simpl.
        -- rewrite Hs2, Hs1, <- app_assoc. reflexivity.
        -- rewrite Hs2, Hs1. reflexivity.
      * rewrite stretch_S, map_app, <- app_assoc, Hkeys.
        destruct ((i + 1) mod store_step =? 0)%Z; reflexivity.
      * apply Forall_app. split; [|exact Hcfg].
        destruct ((i + 1) mod store_step =? 0)%Z; repeat constructor.
Qed.

(** X8.  Whatever way [rl_process] ends (completed, raised, cut off),
    the files present before are untouched and the checkpoints it wrote
    are an initial part of the cadence: they carry the config, and their
    keys are the first multiples of [int(epi_num / store)], in order. *)
Theorem rl_process_saves_prefix (fuel : nat) (cfg : Config) (w0 : World) :
  exists new rest,
    saves (snd (rl_process fuel cfg w0)) = saves w0 ++ new /\
    map fst new ++ rest =
      cadence (epi_num cfg ÷ store cfg) (Z.to_nat (epi_num cfg)) /\
    Forall (fun s => saved_config (snd s) = cfg) new.
Proof.
  unfold rl_process, bind at 1.
  destruct (rl_setup w0) as [r0 ws] eqn:E.
  pose proof (rl_setup_ok w0) as (Hr & Hsv & _). rewrite E in Hr, Hsv.
  simpl in Hr, Hsv. subst r0.
  unfold bind at 1. unfold lift_result, py_int_truediv.
  destruct (store cfg =? 0)%Z.
  - exists [], (cadence (epi_num cfg ÷ store cfg) (Z.to_nat (epi_num cfg))).
    simpl. rewrite Hsv, app_nil_r. auto.
  - destruct (episodes_saves_prefix fuel cfg (epi_num cfg ÷ store cfg)
                (Z.to_nat (epi_num cfg)) 0%Z 0%Z [] ws)
      as (new & rest & Hsaves & Hkeys & Hcfg).
    exists new, rest. rewrite Hsaves, Hsv, Hkeys, stretch_0. auto.
Qed.

End MoreLoop.

Lemma rl_process_store_zero_witness :
  store (mkConfig 3 20000 1 0) = 0%Z /\
  fst (@rl_process toy_net toy_env 1 (mkConfig 3 20000 1 0) (toy_world [])) =
    Raise ZeroDivisionError.
Proof.
  split; [reflexivity|].
  rewrite (proj1 (@rl_process_store_zero toy_net toy_env 1
                    (mkConfig 3 20000 1 0) (toy_world []) eq_refl)).
  reflexivity.
Defined.

Lemma rl_process_update_tgt_zero_witness :
  update_tgt (mkConfig 3 20000 0 1) = 0%Z /\
  (1 <= epi_num (mkConfig 3 20000 0 1))%Z /\
  store (mkConfig 3 20000 0 1) <> 0%Z /\
  fst (@rl_process toy_net toy_env 1 (mkConfig 3 20000 0 1) (toy_world [])) =
    Raise ZeroDivisionError.
Proof.
  split; [reflexivity|]. split; [vm_compute; discriminate|].
  split; [vm_compute; discriminate|].
  destruct (@toy_run_steps 0 (mkConfig 3 20000 0 1) 0%Z
              (snd (rl_setup (toy_world []))) eq_refl
              (toy_inv_setup (toy_world []))) as (r & w1 & Hr & _).
  rewrite (proj1 (@rl_process_update_tgt_zero toy_net toy_env 1
                    (mkConfig 3 20000 0 1) (toy_world []) r w1 eq_refl
                    ltac:(vm_compute; discriminate)
                    ltac:(vm_compute; discriminate) Hr)).
  reflexivity.
Defined.

(** ** The optimisation step: when it goes through *)

Section MoreOptimize.

Context {net : Net} {environment : Env}.

Lemma not_none_nonempty (ts : list Transition) :
  (exists t, In t ts /\ next_state t <> None) ->
  not_none (map next_state ts) <> [].
Proof.
  intros (t & Hin & Hnt). induction ts as [|t0 ts IH]; [contradiction|].
  simpl. destruct (next_state t0) eqn:E; [discriminate|].
  destruct Hin as [<- | Hin]; [congruence | apply IH; exact Hin].
Qed.

Lemma In_not_none (ts : list Transition) (s : state) :
  In s (not_none (map next_state ts)) ->
  exists t, In t ts /\ next_state t = Some s.
Proof.
  induction ts as [|t0 ts IH]; simpl; [contradiction|].
  destruct (next_state t0) as [s0|] eqn:E; simpl.
  - intros [<- | Hin]; [exists t0; auto|].
    destruct (IH Hin) as (t & Ht & Hs). exists t; auto.
  - intros Hin. destruct (IH Hin) as (t & Ht & Hs). exists t; auto.
Qed.

Lemma gather_ok (f : state -> list Q) (ts : list Transition) :
  (forall t, In t ts -> action t < length (f (t_state t))) ->
  exists q,
    gather (map f (map t_state ts)) (map action ts) = Ok q /\
    Forall2 (fun t qi => nth_error (f (t_state t)) (action t) = Some qi) ts q.
Proof.
  induction ts as [|t ts IH]; intros H; simpl.
  - exists []. split; [reflexivity | constructor].
  - destruct (nth_error (f (t_state t)) (action t)) as [qi|] eqn:E.
    + destruct IH as (q & Hq & Hall);
        [intros t' Ht'; apply H; right; exact Ht'|].
      rewrite Hq. simpl. exists (qi :: q). split; [reflexivity|].
      constructor; assumption.
    + apply nth_error_None in E.
      specialize (H t (or_introl eq_refl)). lia.
Qed.

Lemma max_rows_ok (rows : list (list Q)) :
  (forall r, In r rows -> r <> []) ->
  exists best, max_rows rows = Ok best.
Proof.
  induction rows as [|r rows IH]; intros H; simpl; [eauto|].
  destruct r as [|x r]; [exfalso; apply (H []); [left|]; reflexivity|].
  simpl. destruct IH as (best & Hb);
    [intros r' Hr'; apply H; right; exact Hr'|].
  rewrite Hb. simpl. eauto.
Qed.

Lemma masked_assign_ok (f : state -> list Q) (ts : list Transition) :
  forall zeros best,
    length zeros = length ts ->
    max_rows (map f (not_none (map next_state ts))) = Ok best ->
    exists vs,
      masked_assign zeros (map (fun t => is_some (next_state t)) ts) best
        = Ok vs /\
      length vs = length ts.
Proof.
  induction ts as [|t ts IH]; intros zeros best Hlen Hbest.
  - destruct zeros; [|discriminate]. simpl in *. injection Hbest as <-.
    exists []. auto.
  - destruct zeros as [|z zeros]; [discriminate|]. simpl in Hlen.
    simpl in Hbest |- *.
    destruct (next_state t) as [s|]; simpl in Hbest |- *.
    + destruct (row_max (f s)) as [m|]; [|discriminate]. simpl in Hbest.
      destruct (max_rows (map f (not_none (map next_state ts)))) as [ms|] eqn:E;
        [|discriminate].
      simpl in Hbest. injection Hbest as <-.
      destruct (IH zeros ms ltac:(lia) eq_refl) as (vs & Hvs & Hl).
      rewrite Hvs. simpl. exists (m :: vs). simpl. auto.
    + destruct (IH zeros best ltac:(lia) Hbest) as (vs & Hvs & Hl).
      rewrite Hvs. simpl. exists (z :: vs). simpl. auto.
Qed.

Lemma scale_add_ok (gamma : Q) (vs rs : list Q) :
  length vs = length rs -> exists ys, scale_add gamma vs rs = Ok ys.
Proof.
  revert rs; induction vs as [|v vs IH]; intros [|r rs] H; simpl in *;
    try discriminate; [eauto|].
  destruct (IH rs ltac:(lia)) as (ys & Hys). rewrite Hys. simpl. eauto.
Qed.

(** On a batch with a continuing transition, actions within the policy
    output and non-empty target outputs, the batch tensors are built. *)
Lemma td_batch_ok (policy target : params) (ts : list Transition) :
  (exists t, In t ts /\ next_state t <> None) ->
  (forall t, In t ts -> action t < length (forward policy (t_state t))) ->
  (forall t s, In t ts -> next_state t = Some s -> forward target s <> []) ->
  exists q ys,
    td_batch policy target (Z.of_nat (length ts)) ts =
      Ok (map t_state ts, map action ts, q, ys) /\
    Forall2 (fun t qi =>
               nth_error (forward policy (t_state t)) (action t) = Some qi)
            ts q.
Proof.
  intros Hnt Hact Hout.
  assert (Hne : ts <> []) by (destruct Hnt as (t & Hin & _); destruct ts;
                              [contradiction | discriminate]).
  unfold td_batch.
  pose proof (@not_none_nonempty ts Hnt) as Hnn.
  destruct (not_none (map next_state ts)) as [|s0 ss] eqn:Ens; [congruence|].
  rewrite <- Ens. simpl torch_cat at 1.
  replace (torch_cat (not_none (map next_state ts)))
    with (@Ok (list state) (not_none (map next_state ts)))
    by (rewrite Ens; reflexivity).
  cbn [bindR].
  destruct ts as [|t0 ts0] eqn:Ets; [congruence|]. rewrite <- Ets in *.
  replace (torch_cat (map t_state ts)) with (@Ok (list state) (map t_state ts))
    by (rewrite Ets; reflexivity).
  replace (torch_cat (map action ts)) with (@Ok (list nat) (map action ts))
    by (rewrite Ets; reflexivity).
  replace (torch_cat (map reward ts)) with (@Ok (list Q) (map reward ts))
    by (rewrite Ets; reflexivity).
  cbn [bindR].
  destruct (@gather_ok (forward policy) ts Hact) as (q & Hq & Hqs).
  rewrite Hq. cbn [bindR].
  destruct (@max_rows_ok (map (forward target) (not_none (map next_state ts))))
    as (best & Hbest).
  { intros r Hr. apply in_map_iff in Hr. destruct Hr as (s & <- & Hs).
    apply In_not_none in Hs. destruct Hs as (t & Ht & Hst).
    eapply Hout; eauto. }
  rewrite Hbest. cbn [bindR]. rewrite Nat2Z.id.
  destruct (@masked_assign_ok (forward target) ts
              (repeat 0%Q (length ts)) best (repeat_length _ _) Hbest)
    as (vs & Hvs & Hl).
  rewrite Hvs. cbn [bindR].
  destruct (@scale_add_ok GAMMA vs (map reward ts)) as (ys & Hys);
    [rewrite length_map; exact Hl|].
  rewrite Hys. cbn [bindR]. exists q, ys. auto.
Qed.

Lemma filter_length_permutation (A : Type) (f : A -> bool) (l l' : list A) :
  Permutation l l' -> length (filter f l) = length (filter f l').
Proof.
  induction 1 as [|x l l' _ IH|x y l|l l' l'' _ IH1 _ IH2]; simpl.
  - reflexivity.
  - destruct (f x); simpl; congruence.
  - destruct (f x), (f y); reflexivity.
  - congruence.
Qed.

Lemma transpose_batch_some (ts : list Transition) :
  ts <> [] -> transpose_batch (map Some ts) = Ok ts.
Proof.
  intros Hne. unfold transpose_batch.
  destruct ts as [|t ts]; [congruence|].
  change (map Some (t :: ts)) with (Some t :: map Some ts).
  cbv beta iota.
  assert (H : forall l, unpack (map Some l) = Ok l).
  { induction l as [|a l IH]; simpl; [reflexivity|]. rewrite IH. reflexivity. }
  apply (H (t :: ts)).
Qed.

Lemma all_terminal_filter (l : list Transition) :
  (forall t, In t l -> next_state t = None) ->
  length (filter is_terminal l) = length l.
Proof.
  induction l as [|t l IH]; intros H; simpl; [reflexivity|].
  unfold is_terminal at 1. rewrite (H t (or_introl eq_refl)). simpl.
  f_equal. apply IH. intros t' Ht'. apply H. right. exact Ht'.
Qed.

Lemma exists_continuing (l : list Transition) :
  length (filter is_terminal l) < length l ->
  exists t, In t l /\ next_state t <> None.
Proof.
  induction l as [|t l IH]; simpl; [lia|].
  unfold is_terminal at 1.
  destruct (next_state t) as [s|] eqn:E; simpl.
  - intros _. exists t. split; [left; reflexivity | congruence].
  - intros H. destruct IH as (t' & Hin & Hnt); [lia|].
    exists t'. split; [right; exact Hin | exact Hnt].
Qed.


End MoreOptimize.


(** ** Episodes: steps, pushes and durations *)

Section MoreEpisodes.

Context {net : Net} {environment : Env}.

Lemma select_action_counts (st : state) (steps_done : Z) (p : params)
    (g g' : random.state) (a : nat) (s' : Z) :
  select_action st steps_done p g = (Ok (a, s'), g') ->
  s' = (steps_done + 1)%Z.
Proof.
  unfold select_action. destruct (random.random g) as [u g1].
  destruct (Rgt_dec u (eps_threshold steps_done)).
  - destruct (argmax (forward p st)); [|discriminate]. congruence.
  - destruct (feasibility_row st) as [row|]; [|discriminate].
    destruct (random.randrange _ g1) as [[idx|] g2]; [|discriminate].
    destruct (getitem (torch_nonzero row) idx); [|discriminate]. congruence.
Qed.

(** An episode that ends has pushed one transition per step, the last
    one terminal and only that one, and has advanced [steps_done] by the
    number of steps. *)
Lemma episode_steps_counts (C : Z) (cfg : Config) (fuel : nat) :
  forall t st steps_done w hist sd' t' w',
    (0 < C)%Z ->
    ReplayMemory.ring_inv C hist (memory w) ->
    episode_steps fuel cfg t st steps_done w = (Ok (sd', t'), w') ->
    exists pushed,
      ReplayMemory.ring_inv C (hist ++ pushed) (memory w') /\
      Z.of_nat (length pushed) = (t' - t)%Z /\
      (sd' - steps_done = t' - t)%Z /\
      1 <= length pushed <= fuel /\
      episode_shape pushed.
Proof.
  induction fuel as [|fuel IH]; intros t st sd w hist sd' t' w' HC Hinv;
    cbn [episode_steps]; [discriminate|].
  unfold bind at 1. unfold get at 1.
  unfold bind at 1. unfold with_rng at 1.
  destruct (select_action st sd (policy_net w) (rng w)) as [[[a sd1]|e] g1]
    eqn:Esel; [|discriminate].
  apply select_action_counts in Esel. subst sd1.
  cbv beta iota.
  unfold bind at 1. unfold with_env at 1. cbn [env].
  destruct (env_step a (env w)) as [[[ns r] done] e1].
  cbv beta iota.
  unfold bind at 1. unfold with_memory at 1. cbn [memory].
  set (tr := mkTransition st a (if done then None else Some ns) r).
  destruct (push_ring_inv tr HC Hinv) as (m' & Hpush & Hinv' & _).
  rewrite Hpush.
  unfold bind at 1.
  match goal with
  | |- context [optimize_model (batch cfg) ?w1] =>
      pose proof (optimize_model_keeps (batch cfg) w1) as Hkeep;
      destruct (optimize_model (batch cfg) w1) as [[[]|e] w2];
      [|discriminate]
  end.
  simpl in Hkeep. destruct Hkeep as (_ & Hm2 & _).
  destruct done.
  - unfold ret. intros [= <- <- <-].
    exists [tr]. rewrite Hm2. split; [exact Hinv'|].
    split; [simpl; lia|]. split; [lia|]. split; [simpl; lia|].
    exists [], tr. split; [reflexivity|]. split; [reflexivity | constructor].
  - intros Hrest.
    assert (Hinv2 : ReplayMemory.ring_inv C (hist ++ [tr]) (memory w2))
      by (rewrite Hm2; exact Hinv').
    destruct (IH _ _ _ _ _ _ _ _ HC Hinv2 Hrest)
      as (pushed & Hring & Hlen & Hsd & Hbound & pre & last & -> & Hlast & Hpre).
    exists (tr :: pre ++ [last]).
    rewrite <- app_assoc in Hring. split; [exact Hring|].
    split; [simpl length in *; lia|]. split; [lia|].
    split; [simpl length in *; lia|].
    exists (tr :: pre), last. split; [reflexivity|]. split; [exact Hlast|].
    constructor; [discriminate | exact Hpre].
Qed.

(** The same for an episode with its reset. *)
Lemma run_steps_counts (C : Z) (cfg : Config) (fuel : nat)
    (steps_done : Z) (w : World) (hist : list Transition)
    (sd' d : Z) (w' : World) :
  (0 < C)%Z ->
  ReplayMemory.ring_inv C hist (memory w) ->
  run_steps fuel cfg steps_done w = (Ok (sd', d), w') ->
  exists pushed,
    ReplayMemory.ring_inv C (hist ++ pushed) (memory w') /\
    Z.of_nat (length pushed) = d /\
    sd' = (steps_done + d)%Z /\
    (1 <= d <= Z.of_nat fuel)%Z /\
    episode_shape pushed.
Proof.
  intros HC Hinv. unfold run_steps, bind at 1, with_env at 1.
  destruct (env_reset (env w)) as [st e0]. intros Hrun.
  apply (@episode_steps_counts C cfg fuel 0%Z st steps_done _ hist sd' d w'
           HC) in Hrun; [|exact Hinv].
  destruct Hrun as (pushed & Hring & Hlen & Hsd & Hbound & Hshape).
  exists pushed. split; [exact Hring|]. split; [lia|]. split; [lia|].
  split; [lia | exact Hshape].
Qed.

(** X10.  An episode that ends after [d] steps has pushed exactly [d]
    transitions on the replay memory, in order, the last one terminal and
    no other, and has advanced [steps_done] by [d]; [d] is at least 1 and
    the cursor and length of the memory follow the ring discipline. *)
Theorem episode_pushes_and_counts (C : Z) (cfg : Config) (fuel : nat)
    (steps_done : Z) (w : World) (hist : list Transition)
    (sd' d : Z) (w' : World) :
  (0 < C)%Z ->
  ReplayMemory.ring_inv C hist (memory w) ->
  run_steps fuel cfg steps_done w = (Ok (sd', d), w') ->
  exists pushed,
    ReplayMemory.ring_inv C (hist ++ pushed) (memory w') /\
    Z.of_nat (length pushed) = d /\
    sd' = (steps_done + d)%Z /\
    (1 <= d <= Z.of_nat fuel)%Z /\
    episode_shape pushed /\
    ReplayMemory.len (memory w') =
      Z.min (Z.of_nat (length hist) + d) C.
Proof.
  intros HC Hinv Hrun.
  destruct (@run_steps_counts C cfg fuel steps_done w hist sd' d w'
              HC Hinv Hrun)
    as (pushed & Hring & Hlen & Hsd & Hd & Hshape).
  exists pushed.
  split; [exact Hring|]. split; [exact Hlen|]. split; [exact Hsd|].
  split; [exact Hd|]. split; [exact Hshape|].
  destruct Hring as (_ & _ & Hl & _).
  unfold ReplayMemory.len. rewrite Hl, length_app. lia.
Qed.

Lemma target_sync_memory (cfg : Config) (i : Z) (w : World) :
  memory (snd (target_sync cfg i w)) = memory w.
Proof.
  unfold target_sync, bind, lift_result, py_mod.
  destruct (update_tgt cfg =? 0)%Z; [reflexivity|].
  destruct (i mod update_tgt cfg =? 0)%Z; reflexivity.
Qed.

Lemma checkpoint_memory (cfg : Config) (store_step i : Z) (w : World) :
  memory (snd (checkpoint cfg store_step i w)) = memory w.
Proof.
  unfold checkpoint, bind, lift_result, py_mod.
  destruct (store_step =? 0)%Z; [reflexivity|].
  destruct ((i + 1) mod store_step =? 0)%Z; reflexivity.
Qed.

Lemma episode_shape_terminals (pushed : list Transition) :
  episode_shape pushed -> length (filter is_terminal pushed) = 1.
Proof.
  intros (pre & last & -> & Hlast & Hpre).
  rewrite filter_app, length_app. simpl. unfold is_terminal at 2.
  rewrite Hlast. simpl.
  assert (H : filter is_terminal pre = []).
  { induction Hpre as [|t pre Ht _ IH]; simpl; [reflexivity|].
    unfold is_terminal at 1. destruct (next_state t); [exact IH | congruence]. }
  rewrite H. reflexivity.
Qed.

(** The loop of episodes, when it completes. *)
Lemma episodes_memory (C : Z) (cfg : Config) (fuel : nat) (store_step : Z)
    (n : nat) :
  forall i steps_done durations w hist ds w',
    (0 < C)%Z ->
    ReplayMemory.ring_inv C hist (memory w) ->
    episodes fuel cfg store_step n i steps_done durations w = (Ok ds, w') ->
    exists new pushed,
      ds = durations ++ new /\ length new = n /\
      Forall (fun d => (1 <= d <= Z.of_nat fuel)%Z) new /\
      ReplayMemory.ring_inv C (hist ++ pushed) (memory w') /\
      Z.of_nat (length pushed) = total new /\
      length (filter is_terminal pushed) = n.
Proof.
  induction n as [|n IH]; intros i sd durations w hist ds w' HC Hinv.
  - simpl. unfold ret. intros [= <- <-]. exists [], [].
    rewrite !app_nil_r. split; [reflexivity|]. split; [reflexivity|].
    split; [constructor|]. split; [exact Hinv|]. split; reflexivity.
  - cbn [episodes]. unfold bind at 1. unfold episode, bind at 1.
    destruct (run_steps fuel cfg sd w) as [[[sd' d]|e] w1] eqn:Erun;
      [|discriminate].
    destruct (@run_steps_counts C cfg fuel sd w hist sd' d w1 HC Hinv Erun)
      as (p1 & Hring1 & Hlen1 & Hsd & Hd & Hshape).
    unfold bind at 1.
    pose proof (target_sync_memory cfg i w1) as Hm2.
    destruct (target_sync cfg i w1) as [[[]|e] w2]; [|discriminate].
    unfold bind at 1.
    pose proof (checkpoint_memory cfg store_step i w2) as Hm3.
    destruct (checkpoint cfg store_step i w2) as [[[]|e] w3]; [|discriminate].
    unfold ret at 1. simpl in Hm2, Hm3. intros Hrest.
    assert (Hinv3 : ReplayMemory.ring_inv C (hist ++ p1) (memory w3))
      by (rewrite Hm3, Hm2; exact Hring1).
    destruct (IH _ _ _ _ _ _ _ HC Hinv3 Hrest)
      as (new & p2 & -> & Hn & Hall & Hring & Hlen & Hterm).
    exists (d :: new), (p1 ++ p2).
    split; [rewrite <- app_assoc; reflexivity|].
    split; [simpl; lia|].
    split; [constructor; assumption|].
    split; [rewrite app_assoc; exact Hring|].
    split; [rewrite length_app; unfold total in *; simpl; lia|].
    rewrite filter_app, length_app, Hterm.
    rewrite (@episode_shape_terminals p1 Hshape). reflexivity.
Qed.

(** X11.  When [rl_process] completes, it returns one duration per
    episode, each at least 1, and the replay memory has received exactly
    one push per environment step: its length is the total number of
    steps capped at 10000, its cursor is that total modulo 10000, and it
    has seen as many terminal transitions as episodes. *)
Theorem rl_process_memory (fuel : nat) (cfg : Config) (w0 : World)
    (durations : list Z) (w' : World) :
  rl_process fuel cfg w0 = (Ok durations, w') ->
  length durations = Z.to_nat (epi_num cfg) /\
  Forall (fun d => (1 <= d <= Z.of_nat fuel)%Z) durations /\
  ReplayMemory.capacity (memory w') = 10000%Z /\
  ReplayMemory.len (memory w') = Z.min (total durations) 10000 /\
  ReplayMemory.position (memory w') = (total durations mod 10000)%Z /\
  exists pushed,
    ReplayMemory.ring_inv 10000 pushed (memory w') /\
    Z.of_nat (length pushed) = total durations /\
    length (filter is_terminal pushed) = length durations.
Proof.
  unfold rl_process, bind at 1.
  destruct (rl_setup w0) as [r0 ws] eqn:E.
  assert (Hinit : ReplayMemory.ring_inv 10000 [] (memory ws)).
  { replace ws with (snd (rl_setup w0)) by (rewrite E; reflexivity).
    apply ring_inv_init. }
  pose proof (rl_setup_ok w0) as (Hr & _). rewrite E in Hr. simpl in Hr.
  subst r0. unfold bind at 1. unfold lift_result, py_int_truediv.
  destruct (store cfg =? 0)%Z; [discriminate|].
  intros Hrun.
  destruct (@episodes_memory 10000 cfg fuel _ _ _ _ _ _ _ _ _
              ltac:(lia) Hinit Hrun)
    as (new & pushed & -> & Hn & Hall & Hring & Hlen & Hterm).
  simpl in *. pose proof Hring as (Hcap & Hpos & Hl & _).
  split; [exact Hn|]. split; [exact Hall|]. split; [exact Hcap|].
  split; [unfold ReplayMemory.len; rewrite Hl; lia|].
  split; [rewrite Hpos, Hlen; reflexivity|].
  exists pushed. split; [exact Hring|]. split; [exact Hlen|].
  rewrite Hterm, Hn. reflexivity.
Qed.

End MoreEpisodes.

Lemma episode_pushes_and_counts_witness :
  exists sd' d w',
    @run_steps toy_net toy_env 1 toy_config 7 (toy_world []) =
      (Ok (sd', d), w') /\
    sd' = 8%Z /\ d = 1%Z /\ ReplayMemory.len (memory w') = 1%Z.
Proof.
  assert (Hinv : ReplayMemory.ring_inv 10000 []
                   (memory (toy_world []))).
  { apply (ring_inv_init Transition 10000). }
  destruct (@toy_run_steps 0 toy_config 7%Z (toy_world []) eq_refl
              (ex_intro _ [] Hinv)) as ([sd' d] & w' & Hrun & _).
  destruct (@episode_pushes_and_counts toy_net toy_env 10000 toy_config 1 7
              (toy_world []) [] sd' d w' ltac:(lia) Hinv Hrun)
    as (pushed & Hring & Hlen & Hsd & Hd & _).
  exists sd', d, w'. split; [exact Hrun|].
  destruct Hring as (_ & _ & Hl & _).
  unfold ReplayMemory.len. rewrite Hl. simpl length in *. lia.
Defined.

(** ** Shuffling *)

Section ShuffleFacts.

Variable A : Type.

Lemma exchange_permutation (t : list A) (j : nat) (b h : A) :
  nth_error t j = Some b -> Permutation (b :: list_set t j h) (h :: t).
Proof.
  revert j; induction t as [|c t IH]; intros [|j]; simpl; try discriminate.
  - intros [= ->]. apply perm_swap.
  - intros H. specialize (IH j H).
    apply perm_trans with (c :: b :: list_set t j h); [apply perm_swap|].
    apply perm_trans with (c :: h :: t); [apply perm_skip; exact IH|].
    apply perm_swap.
Qed.

Lemma swap_permutation (x : list A) : forall i j, Permutation (swap x i j) x.
Proof.
  unfold swap. induction x as [|h t IH]; intros i j.
  - destruct i, j; reflexivity.
  - destruct i as [|i], j as [|j]; simpl.
    + reflexivity.
    + destruct (nth_error t j) as [b|] eqn:E; [|reflexivity].
      apply exchange_permutation. exact E.
    + destruct (nth_error t i) as [a|] eqn:E; [|reflexivity].
      apply exchange_permutation. exact E.
    + specialize (IH i j).
      destruct (nth_error t i) as [a|]; [|reflexivity].
      destruct (nth_error t j) as [b|]; [|reflexivity].
      apply perm_skip. exact IH.
Qed.

Lemma shuffle_from_permutation (i : nat) :
  forall (x : list A) g, Permutation (fst (shuffle_from i x g)) x.
Proof.
  induction i as [|i IH]; intros x g; cbn [shuffle_from]; [reflexivity|].
  destruct (random.randbelow (S (S i)) g) as [j g1].
  apply perm_trans with (swap x (S i) j); [apply IH | apply swap_permutation].
Qed.

End ShuffleFacts.

Lemma node_color_NoDup : NoDup palette.node_color.
Proof.
  unfold palette.node_color.
  repeat (constructor; [simpl; intuition discriminate|]). constructor.
Qed.

(** ** [plot_durations] *)

Lemma nth_error_repeat_app (A : Type) (a : A) (n : nat) (l : list A) (j : nat) :
  j < n -> nth_error (repeat a n ++ l) j = Some a.
Proof.
  intros H. rewrite nth_error_app1 by (rewrite repeat_length; exact H).
  apply nth_error_repeat. exact H.
Qed.

(** X12.  [plot_durations] draws the durations; with fewer than 100 of
    them it draws nothing else, and from 100 on it adds one curve with as
    many points as there are durations, whose first 99 points are 0 and
    whose point [j >= 99] is the mean of the 100 durations that end at
    episode [j]. *)
Theorem plot_durations_curves (episode_durations : list Z) :
  let durations_t := map inject_Z episode_durations in
  (length episode_durations < 100 ->
   plot_durations episode_durations = Ok [plt.Curve durations_t]) /\
  (100 <= length episode_durations ->
   exists means,
     plot_durations episode_durations =
       Ok [plt.Curve durations_t; plt.Curve means] /\
     length means = length episode_durations /\
     (forall j, j < 99 -> nth_error means j = Some 0%Q) /\
     (forall j, 99 <= j < length episode_durations ->
        length (firstn 100 (skipn (j - 99) durations_t)) = 100 /\
        nth_error means j =
          Some (tensor_mean (firstn 100 (skipn (j - 99) durations_t))))).
Proof.
  intros durations_t. unfold plot_durations. fold durations_t.
  assert (Hlen : length durations_t = length episode_durations)
    by (subst durations_t; apply length_map).
  rewrite Hlen. split.
  - intros H. replace (100 <=? length episode_durations) with false
      by (symmetry; apply Nat.leb_gt; exact H).
    reflexivity.
  - intros H. replace (100 <=? length episode_durations) with true
      by (symmetry; apply Nat.leb_le; exact H).
    unfold torch_unfold. rewrite Hlen.
    replace (100 <=? length episode_durations) with true
      by (symmetry; apply Nat.leb_le; exact H).
    cbn [bindR app].
    eexists. split; [reflexivity|]. split; [|split].
    + rewrite length_app, repeat_length, !length_map, length_seq. lia.
    + intros j Hj. apply nth_error_repeat_app. exact Hj.
    + intros j Hj. split.
      * rewrite length_firstn, length_skipn, Hlen. lia.
      * rewrite nth_error_app2 by (rewrite repeat_length; lia).
        rewrite repeat_length, map_map.
        rewrite nth_error_map.
        rewrite nth_error_seq.
        replace (j - 99 <? length episode_durations + 1 - 100) with true
          by (symmetry; apply Nat.ltb_lt; lia).
        reflexivity.
Qed.

(** ** [eval_plt] *)

Lemma getitem_raises (A : Type) (l : list A) (i : Z) (e : exn) :
  getitem l i = Raise e -> e = IndexError.
Proof.
  unfold getitem. destruct (py_index (length l) i) as [k|]; [|congruence].
  destruct (nth_error l k); congruence.
Qed.

Lemma lookup_raises (A : Type) (l : list A) (i : nat) (e : exn) :
  lookup l i = Raise e -> e = IndexError.
Proof. unfold lookup. destruct (nth_error l i); congruence. Qed.

Lemma coord_of_raises (env : PlotEnv) (node : Z) (e : exn) :
  coord_of env node = Raise e -> e = IndexError.
Proof.
  unfold coord_of. destruct (node =? -1)%Z; [discriminate|].
  apply getitem_raises.
Qed.

Lemma for_each_raises (A B : Type) (f : A -> result B) (l : list A) :
  (forall a e, f a = Raise e -> e = IndexError) ->
  forall e, for_each f l = Raise e -> e = IndexError.
Proof.
  intros Hf. induction l as [|a l IH]; simpl; intros e; [discriminate|].
  destruct (f a) as [b|e0] eqn:E; simpl.
  - destruct (for_each f l) as [bs|e1]; simpl; [discriminate|].
    intros [= <-]. apply IH. reflexivity.
  - intros [= <-]. eapply Hf; eauto.
Qed.

Lemma for_each_spec (A B : Type) (f : A -> result B) (l : list A)
    (bs : list B) :
  for_each f l = Ok bs -> Forall2 (fun a b => f a = Ok b) l bs.
Proof.
  revert bs; induction l as [|a l IH]; simpl; intros bs.
  - intros [= <-]. constructor.
  - destruct (f a) as [b|] eqn:E; simpl; [|discriminate].
    destruct (for_each f l) as [bs'|]; simpl; [|discriminate].
    intros [= <-]. constructor; [exact E | apply IH; reflexivity].
Qed.

Lemma draw_customers_raises (color : String.string) (env : PlotEnv)
    (idx : nat) (e : exn) :
  draw_customers color env idx = Raise e -> e = IndexError.
Proof.
  unfold draw_customers. apply for_each_raises.
  intros cus e0. destruct (getitem _ _) eqn:E; simpl; [discriminate|].
  intros [= <-]. eapply getitem_raises; eauto.
Qed.

(** What the customers of a region look like. *)
Lemma draw_customers_spec (color : String.string) (env : PlotEnv)
    (idx : nat) (l : list plt.artist) :
  draw_customers color env idx = Ok l ->
  length l = Z.to_nat (customer_per_region env) /\
  forall a, In a l ->
    exists x y, a = plt.Scatter x y color palette.circle (plt.CUS idx).
Proof.
  unfold draw_customers. intros H. apply for_each_spec in H.
  split.
  - apply Forall2_length in H. rewrite length_seq in H. auto.
  - induction H as [|cus a cs l Ha _ IH]; intros a' [].
    + subst a'. destruct (getitem _ _) as [xy|]; simpl in Ha; [|discriminate].
      injection Ha as <-. eauto.
    + apply IH. assumption.
Qed.

Lemma draw_nodes_raises (nc : list String.string) (env : PlotEnv)
    (locs : list (Q * Q)) :
  forall idx e, draw_nodes nc env idx locs = Raise e -> e = IndexError.
Proof.
  induction locs as [|[x y] locs IH]; intros idx e; simpl; [discriminate|].
  destruct (lookup nc idx) as [c|e0] eqn:E; simpl;
    [|intros [= <-]; eapply lookup_raises; eauto].
  destruct (draw_customers c env idx) as [cs|e0] eqn:Ec; simpl;
    [|intros [= <-]; eapply draw_customers_raises; eauto].
  destruct (draw_nodes nc env (S idx) locs) as [os|e0] eqn:Eo; simpl;
    [discriminate|].
  intros [= <-]. eapply IH; eauto.
Qed.

Lemma draw_nodes_spec (nc : list String.string) (env : PlotEnv)
    (locs : list (Q * Q)) :
  forall idx l,
    draw_nodes nc env idx locs = Ok l ->
    (locs = [] \/ idx + length locs <= length nc) /\
    length l = length locs * (1 + Z.to_nat (customer_per_region env)) /\
    forall a, In a l ->
      exists i c, region_colour a = Some (i, c) /\ nth_error nc i = Some c /\
                  idx <= i < idx + length locs.
Proof.
  induction locs as [|[x y] locs IH]; intros idx l; simpl.
  - intros [= <-]. split; [left; reflexivity|]. split; [reflexivity|].
    intros a [].
  - unfold lookup at 1.
    destruct (nth_error nc idx) as [c|] eqn:E; simpl; [|discriminate].
    destruct (draw_customers c env idx) as [cs|] eqn:Ec; simpl; [|discriminate].
    destruct (draw_nodes nc env (S idx) locs) as [os|] eqn:Eo; simpl;
      [|discriminate].
    intros [= <-].
    destruct (IH _ _ Eo) as (Hle & Hlen & Hall).
    destruct (draw_customers_spec _ _ _ Ec) as (Hclen & Hc).
    assert (Hidx : idx < length nc)
      by (apply nth_error_Some; rewrite E; discriminate).
    split; [right; destruct Hle as [-> | Hle]; simpl; lia|]. split.
    + simpl. rewrite length_app, Hclen, Hlen. lia.
    + intros a [<- | Hin].
      * exists idx, c. simpl. split; [reflexivity|]. split; [exact E | lia].
      * apply in_app_or in Hin. destruct Hin as [Hin | Hin].
        -- destruct (Hc a Hin) as (x' & y' & ->).
           exists idx, c. simpl. split; [reflexivity|]. split; [exact E | lia].
        -- destruct (Hall a Hin) as (i & c' & Hrc & Hnth & Hr).
           exists i, c'. split; [exact Hrc|]. split; [exact Hnth | lia].
Qed.

Lemma draw_trace_raises (env : PlotEnv) (moves : list (Z * Z)) :
  forall ci e, draw_trace env ci moves = Raise e -> e = IndexError.
Proof.
  induction moves as [|[a b] moves IH]; intros ci e; simpl; [discriminate|].
  destruct (coord_of env a) as [h|e0] eqn:Eh; simpl;
    [|intros [= <-]; eapply coord_of_raises; eauto].
  destruct (coord_of env b) as [t|e0] eqn:Et; simpl;
    [|intros [= <-]; eapply coord_of_raises; eauto].
  destruct (lookup palette.colors ci) as [c|e0] eqn:Ec; simpl;
    [|intros [= <-]; eapply lookup_raises; eauto].
  destruct (draw_trace env _ moves) as [os|e0] eqn:Eo; simpl; [discriminate|].
  intros [= <-]. eapply IH; eauto.
Qed.

(** The arrows of the moves: one per move, from node to node, in the
    colour whose index is the number of returns to the depot so far. *)
Lemma draw_trace_spec (env : PlotEnv) (moves : list (Z * Z)) :
  forall ci arrows,
    draw_trace env ci moves = Ok arrows ->
    length arrows = length moves /\
    (forall a, In a arrows -> region_colour a = None) /\
    forall k a b,
      nth_error moves k = Some (a, b) ->
      exists h e c,
        coord_of env a = Ok h /\ coord_of env b = Ok e /\
        nth_error palette.colors
          (ci + returns (map snd (firstn k moves))) = Some c /\
        nth_error arrows k =
          Some (plt.Arrow (fst h) (snd h) (fst e - fst h)%Q (snd e - snd h)%Q
                  (3 * plot_factor env)%Q (6 * plot_factor env)%Q c
                  (0.2 * plot_factor env)%Q).
Proof.
  induction moves as [|[a0 b0] moves IH]; intros ci arrows; simpl.
  - intros [= <-]. split; [reflexivity|]. split; [intros a []|].
    intros [|k] a b; discriminate.
  - destruct (coord_of env a0) as [h0|] eqn:Eh; simpl; [|discriminate].
    destruct (coord_of env b0) as [e0|] eqn:Ee; simpl; [|discriminate].
    unfold lookup at 1.
    destruct (nth_error palette.colors ci) as [c0|] eqn:Ec; simpl;
      [|discriminate].
    destruct (draw_trace env _ moves) as [os|] eqn:Eo; simpl; [|discriminate].
    intros [= <-].
    destruct (IH _ _ Eo) as (Hlen & Hnone & Hall).
    split; [simpl; lia|]. split.
    + intros a [<- | Hin]; [reflexivity | apply Hnone; exact Hin].
    + intros [|k] a b Hk; simpl in Hk.
      * injection Hk as <- <-. exists h0, e0, c0.
        simpl. rewrite Nat.add_0_r. auto.
      * destruct (Hall k a b Hk) as (h & e & c & Hh & He & Hc & Harrow).
        exists h, e, c. split; [exact Hh|]. split; [exact He|].
        split; [|exact Harrow].
        simpl. unfold returns in *. simpl.
        destruct (b0 =? -1)%Z; simpl;
          [rewrite <- Hc; f_equal; lia | exact Hc].
Qed.

(** Moves after the seventh return to the depot have no colour left. *)
Lemma draw_trace_no_colour (env : PlotEnv) (moves : list (Z * Z)) :
  forall ci,
    moves <> [] ->
    7 <= ci + returns (map snd (removelast moves)) ->
    draw_trace env ci moves = Raise IndexError.
Proof.
  induction moves as [|[a b] moves IH]; intros ci Hne Hret; [congruence|].
  destruct (draw_trace env ci ((a, b) :: moves)) as [arrows|e] eqn:E.
  - exfalso. revert E. simpl.
    destruct (coord_of env a) as [h|]; simpl; [|discriminate].
    destruct (coord_of env b) as [t|]; simpl; [|discriminate].
    unfold lookup at 1.
    destruct (nth_error palette.colors ci) as [c|] eqn:Ec; simpl;
      [|discriminate].
    assert (Hci : ci < 7).
    { change 7 with (length palette.colors).
      apply nth_error_Some. rewrite Ec. discriminate. }
    destruct moves as [|m moves]; [simpl in Hret; unfold returns in Hret;
                                   simpl in Hret; lia|].
    rewrite IH; [discriminate | discriminate |].
    revert Hret. unfold returns. cbn [removelast map filter snd].
    destruct (b =? -1)%Z; simpl; lia.
  - f_equal. eapply draw_trace_raises; eauto.
Qed.

Lemma consecutive_cons (x y : Z) (r : list Z) :
  consecutive (x :: y :: r) = (x, y) :: consecutive (y :: r).
Proof. reflexivity. Qed.

Lemma consecutive_snd (tr : list Z) : map snd (consecutive tr) = tl tr.
Proof.
  destruct tr as [|x tr]; [reflexivity|].
  revert x; induction tr as [|y r IH]; intros x; [reflexivity|].
  rewrite consecutive_cons. simpl map. rewrite IH. reflexivity.
Qed.

Lemma consecutive_length (tr : list Z) :
  length (consecutive tr) = length tr - 1.
Proof.
  rewrite <- (length_map snd), consecutive_snd.
  destruct tr; simpl; lia.
Qed.

Lemma consecutive_nth (tr : list Z) :
  forall k a b,
    nth_error tr k = Some a -> nth_error tr (S k) = Some b ->
    nth_error (consecutive tr) k = Some (a, b).
Proof.
  destruct tr as [|x tr]; [intros [|k]; discriminate|].
  revert x; induction tr as [|y r IH]; intros x k a b.
  - destruct k as [|[|k]]; discriminate.
  - rewrite consecutive_cons. destruct k as [|k]; simpl.
    + intros [= <-] [= <-]. reflexivity.
    + intros Ha Hb. apply IH; assumption.
Qed.

Lemma map_removelast (A B : Type) (f : A -> B) (l : list A) :
  map f (removelast l) = removelast (map f l).
Proof.
  induction l as [|a l IH]; [reflexivity|].
  destruct l as [|b l]; [reflexivity|].
  change (removelast (a :: b :: l)) with (a :: removelast (b :: l)).
  change (map f (a :: b :: l)) with (f a :: map f (b :: l)).
  change (removelast (f a :: map f (b :: l)))
    with (f a :: removelast (map f (b :: l))).
  rewrite <- IH. reflexivity.
Qed.

Lemma eval_plt_raises (env : PlotEnv) (env_idx turns : Z) (g : random.state)
    (e : exn) :
  fst (eval_plt env env_idx turns g) = Raise e -> e = IndexError.
Proof.
  unfold eval_plt.
  destruct (random_shuffle palette.node_color g) as [nc g']. simpl.
  destruct (draw_nodes nc env 0 (loc_coord env)) as [nodes|e0] eqn:En; simpl;
    [|intros [= <-]; eapply draw_nodes_raises; eauto].
  destruct (draw_trace env 0 (consecutive (trace env))) as [arrows|e0] eqn:Ea;
    simpl; [discriminate|].
  intros [= <-]. eapply draw_trace_raises; eauto.
Qed.

Lemma eval_plt_ok (env : PlotEnv) (env_idx turns : Z) (g g' : random.state)
    (fig : plt.figure) :
  eval_plt env env_idx turns g = (Ok fig, g') ->
  exists nc nodes arrows,
    Permutation nc palette.node_color /\
    draw_nodes nc env 0 (loc_coord env) = Ok nodes /\
    draw_trace env 0 (consecutive (trace env)) = Ok arrows /\
    fig = plt.mkFigure env_idx turns
            (plt.Scatter 0 0 palette.black palette.star plt.DC
               :: nodes ++ arrows).
Proof.
  unfold eval_plt, random_shuffle.
  pose proof (shuffle_from_permutation (length palette.node_color - 1)
                palette.node_color g) as Hperm.
  destruct (shuffle_from _ palette.node_color g) as [nc g1]. simpl in Hperm.
  destruct (draw_nodes nc env 0 (loc_coord env)) as [nodes|] eqn:En; simpl;
    [|discriminate].
  destruct (draw_trace env 0 (consecutive (trace env))) as [arrows|] eqn:Ea;
    simpl; [|discriminate].
  intros [= <- <-]. exists nc, nodes, arrows. auto.
Qed.


(** X14.  A trace that returns to the depot seven times before its last
    move cannot be drawn: [eval_plt] raises [IndexError], the palette of
    the routes having seven colours. *)
Theorem eval_plt_eighth_route (env : PlotEnv) (env_idx turns : Z)
    (g : random.state) :
  7 <= returns (removelast (tl (trace env))) ->
  fst (eval_plt env env_idx turns g) = Raise IndexError.
Proof.
  intros H.
  destruct (fst (eval_plt env env_idx turns g)) as [fig|e] eqn:E.
  - exfalso.
    destruct (eval_plt env env_idx turns g) as [r g'] eqn:Ep. simpl in E.
    subst r. apply eval_plt_ok in Ep.
    destruct Ep as (nc & nodes & arrows & _ & _ & Ha & _).
    rewrite draw_trace_no_colour in Ha; [discriminate| |].
    + intros Hnil. rewrite <- consecutive_snd, Hnil in H.
      unfold returns in H. simpl in H. lia.
    + rewrite map_removelast, consecutive_snd. simpl. exact H.
  - f_equal. eapply eval_plt_raises; eauto.
Qed.

(** X15.  With more than eleven regions [eval_plt] raises [IndexError]:
    the palette of the regions has eleven colours. *)
Theorem eval_plt_twelfth_region (env : PlotEnv) (env_idx turns : Z)
    (g : random.state) :
  11 < length (loc_coord env) ->
  fst (eval_plt env env_idx turns g) = Raise IndexError.
Proof.
  intros H.
  destruct (fst (eval_plt env env_idx turns g)) as [fig|e] eqn:E.
  - exfalso.
    destruct (eval_plt env env_idx turns g) as [r g'] eqn:Ep. simpl in E.
    subst r. apply eval_plt_ok in Ep.
    destruct Ep as (nc & nodes & arrows & Hperm & Hn & _ & _).
    destruct (@draw_nodes_spec nc env (loc_coord env) 0 nodes Hn)
      as ([Hnil | Hle] & _).
    + rewrite Hnil in H. simpl in H. lia.
    + apply Permutation_length in Hperm. simpl in Hperm, Hle. lia.
  - f_equal. eapply eval_plt_raises; eauto.
Qed.

(** X16.  In a figure [eval_plt] saves, the colours of the regions are a
    rearrangement of the eleven colours of the palette: every customer
    has the colour of its region, and two scatters have the same colour
    exactly when they belong to the same region. *)
Theorem eval_plt_colours (env : PlotEnv) (env_idx turns : Z)
    (g g' : random.state) (fig : plt.figure) :
  eval_plt env env_idx turns g = (Ok fig, g') ->
  exists nc,
    Permutation nc palette.node_color /\
    (forall a i c, In a (plt.artists fig) -> region_colour a = Some (i, c) ->
       nth_error nc i = Some c) /\
    (forall a1 a2 i1 i2 c1 c2,
       In a1 (plt.artists fig) -> In a2 (plt.artists fig) ->
       region_colour a1 = Some (i1, c1) -> region_colour a2 = Some (i2, c2) ->
       (c1 = c2 <-> i1 = i2)).
Proof.
  intros H. apply eval_plt_ok in H.
  destruct H as (nc & nodes & arrows & Hperm & Hn & Ha & ->).
  destruct (@draw_nodes_spec nc env (loc_coord env) 0 nodes Hn) as (_ & _ & Hnodes).
  destruct (@draw_trace_spec env (consecutive (trace env)) 0 arrows Ha)
    as (_ & Hnone & _).
  assert (Hcol : forall a i c,
             In a (plt.artists
                     (plt.mkFigure env_idx turns
                        (plt.Scatter 0 0 palette.black palette.star plt.DC
                           :: nodes ++ arrows))) ->
             region_colour a = Some (i, c) -> nth_error nc i = Some c).
  { simpl. intros a i c [<- | Hin] Hrc; [discriminate|].
    apply in_app_or in Hin. destruct Hin as [Hin | Hin].
    - destruct (Hnodes a Hin) as (i' & c' & Hrc' & Hnth & _). congruence.
    - rewrite (Hnone a Hin) in Hrc. discriminate. }
  exists nc. split; [exact Hperm|]. split; [exact Hcol|].
  intros a1 a2 i1 i2 c1 c2 H1 H2 Hr1 Hr2.
  pose proof (Hcol _ _ _ H1 Hr1) as Hn1. pose proof (Hcol _ _ _ H2 Hr2) as Hn2.
  assert (Hnd : NoDup nc)
    by (apply (Permutation_NoDup (Permutation_sym Hperm)), node_color_NoDup).
  split.
  - intros <-. rewrite <- Hn2 in Hn1.
    apply (proj1 (NoDup_nth_error nc) Hnd); [|exact Hn1].
    apply nth_error_Some. rewrite Hn1, Hn2. discriminate.
  - intros <-. congruence.
Qed.

Lemma eval_plt_demo :
  exists fig g',
    eval_plt demo_plot_env 0 3 toy_rng = (Ok fig, g') /\
    length (plt.artists fig) = 6.
Proof. eexists. eexists. split; vm_compute; reflexivity. Qed.


Lemma eval_plt_eighth_route_witness :
  7 <= returns (removelast (tl (trace eight_routes))) /\
  fst (eval_plt eight_routes 0 15 toy_rng) = Raise IndexError.
Proof.
  split; [vm_compute; lia|].
  apply eval_plt_eighth_route. vm_compute. lia.
Defined.

Lemma eval_plt_twelfth_region_witness :
  11 < length (loc_coord twelve_regions) /\
  fst (eval_plt twelve_regions 0 0 toy_rng) = Raise IndexError.
Proof.
  split; [vm_compute; lia|].
  apply eval_plt_twelfth_region. vm_compute. lia.
Defined.

Lemma eval_plt_colours_witness :
  exists fig g' nc,
    eval_plt demo_plot_env 0 3 toy_rng = (Ok fig, g') /\
    Permutation nc palette.node_color.
Proof.
  destruct eval_plt_demo as (fig & g' & H & _).
  destruct (eval_plt_colours H) as (nc & Hperm & _).
  exists fig, g', nc. split; assumption.
Defined.

(** ** [rl_eval] *)

Section EvaluationFacts.

Context {net : Net} {evaluation : EvalEnv}.

(** A rollout saves at most one figure, under the number of its episode,
    and only when it returns. *)
Lemma rollout_figures (policy : params) (i_episode : Z) (fuel : nat) :
  forall t st w,
    let out := rollout fuel policy i_episode t st w in
    (exists log fig,
       fst out = Ok log /\ figures (snd out) = figures w ++ [fig] /\
       plt.env_idx fig = i_episode /\
       (t <= plt.turns fig < t + Z.of_nat fuel)%Z) \/
    (exists e, fst out = Raise e /\ figures (snd out) = figures w).
Proof.
  induction fuel as [|fuel IH]; intros t st w; cbn [rollout].
  - right. exists OutOfFuel. split; reflexivity.
  - destruct (argmax (forward policy st)) as [a|e];
      [|right; exists e; split; reflexivity].
    destruct (env_step a (eval_state w)) as [[[next_st r] done] e1].
    destruct done.
    + destruct (eval_plt (env_plot e1) i_episode t (eval_rng w))
        as [[fig|e] g'] eqn:Ep.
      * left.
        destruct (eval_plt_ok Ep) as (nc & nodes & arrows & _ & _ & _ & Hfig).
        eexists. exists fig. simpl.
        split; [reflexivity|]. split; [reflexivity|].
        rewrite Hfig. simpl. split; [reflexivity | lia].
      * right. exists e. split; reflexivity.
    + specialize (IH (t + 1)%Z next_st
                    (mkEvalWorld (eval_rng w) e1 (figures w))).
      cbv zeta in IH. simpl figures at 2 4 in IH.
      destruct IH as [(log & fig & Hr & Hf & Hi & Ht) | (e & Hr & Hf)].
      * left. exists log, fig. repeat split; auto; lia.
      * right. exists e. split; assumption.
Qed.

Lemma eval_episodes_figures (policy : params) (fuel : nat) (n : nat) :
  forall i logs w,
    let out := eval_episodes fuel policy n i logs w in
    exists new,
      figures (snd out) = figures w ++ new /\
      map plt.env_idx new =
        map (fun j => (i + Z.of_nat j)%Z) (seq 0 (length new)) /\
      length new <= n /\
      Forall (fun f => (0 <= plt.turns f < Z.of_nat fuel)%Z) new /\
      (forall logs', fst out = Ok logs' ->
         length new = n /\ length logs' = length logs + n).
Proof.
  induction n as [|n IH]; intros i logs w; cbn [eval_episodes].
  - exists []. simpl. rewrite app_nil_r. repeat split; auto.
    + injection H as <-. lia.
  - destruct (env_reset (eval_state w)) as [st e0].
    pose proof (rollout_figures policy i fuel 0%Z st
                  (mkEvalWorld (eval_rng w) e0 (figures w))) as Hr.
    cbv zeta in Hr. simpl figures at 2 4 in Hr.
    destruct (rollout fuel policy i 0%Z st
                (mkEvalWorld (eval_rng w) e0 (figures w))) as [[log|e] w1].
    + destruct Hr as [(log' & fig & _ & Hf & Hi & Ht) | (e & He & _)];
        [|discriminate].
      simpl in Hf.
      specialize (IH (i + 1)%Z (logs ++ [log]) w1). cbv zeta in IH.
      destruct IH as (new & Hfig & Hidx & Hlen & Hturns & Hok).
      exists (fig :: new). rewrite Hfig, Hf, <- app_assoc.
      split; [reflexivity|]. split.
      { simpl. rewrite Hi, Z.add_0_r. f_equal.
        rewrite <- seq_shift, map_map, Hidx.
        apply map_ext. intros j. lia. }
      split; [simpl; lia|]. split; [constructor; [lia | exact Hturns]|].
      intros logs' Hl. destruct (Hok logs' Hl) as (H1 & H2).
      rewrite length_app in H2. simpl in *. lia.
    + destruct Hr as [(log' & fig & Hd & _) | (e' & _ & Hf)];
        [discriminate|].
      simpl in Hf. exists []. simpl. rewrite app_nil_r.
      split; [exact Hf|]. split; [reflexivity|]. split; [lia|].
      split; [constructor|]. intros logs' Hl. discriminate.
Qed.


End EvaluationFacts.


Lemma plot_durations_curves_witness :
  length [3%Z; 1%Z; 2%Z] < 100 /\
  100 <= length (repeat 2%Z 100) /\
  plot_durations [3%Z; 1%Z; 2%Z] =
    Ok [plt.Curve (map inject_Z [3%Z; 1%Z; 2%Z])] /\
  exists means,
    plot_durations (repeat 2%Z 100) =
      Ok [plt.Curve (map inject_Z (repeat 2%Z 100)); plt.Curve means] /\
    length means = 100.
Proof.
  split; [simpl; lia|]. split; [rewrite repeat_length; lia|].
  split.
  - apply (proj1 (plot_durations_curves [3%Z; 1%Z; 2%Z])). simpl. lia.
  - destruct (proj2 (plot_durations_curves (repeat 2%Z 100)))
      as (means & Hp & Hl & _); [rewrite repeat_length; lia|].
    exists means. split; [exact Hp|]. rewrite Hl. apply repeat_length.
Defined.

(** The toy run completes. *)
Lemma toy_rl_process :
  exists durations w',
    @rl_process toy_net toy_env 1 toy_config (toy_world []) =
      (Ok durations, w').
Proof.
  destruct (@episodes_complete toy_net toy_env toy_inv 1 toy_config 2%Z
              ltac:(discriminate) ltac:(discriminate) toy_inv_frame
              (fun w sd => @toy_run_steps 0 toy_config sd w eq_refl)
              4 0%Z 0%Z [] (snd (rl_setup (toy_world [])))
              (toy_inv_setup (toy_world [])))
    as (ds & w' & new & Hrun & _).
  exists ds, w'. exact Hrun.
Qed.

Lemma rl_process_memory_witness :
  exists durations w',
    @rl_process toy_net toy_env 1 toy_config (toy_world []) =
      (Ok durations, w') /\
    length durations = 4 /\
    ReplayMemory.len (memory w') = 4%Z.
Proof.
  destruct toy_rl_process as (ds & w' & Hrun).
  destruct (@rl_process_memory toy_net toy_env 1 toy_config (toy_world [])
              ds w' Hrun) as (Hn & Hall & _ & Hlen & _).
  exists ds, w'. split; [exact Hrun|]. split; [exact Hn|].
  rewrite Hlen.
  assert (Htot : total ds = 4%Z).
  { change (Z.to_nat (epi_num toy_config)) with 4 in Hn.
    destruct ds as [|d1 [|d2 [|d3 [|d4 [|d5 ds]]]]]; try discriminate.
    inversion Hall as [|? ? H1 Hall1]; subst.
    inversion Hall1 as [|? ? H2 Hall2]; subst.
    inversion Hall2 as [|? ? H3 Hall3]; subst.
    inversion Hall3 as [|? ? H4 _]; subst.
    unfold total. simpl. lia. }
  rewrite Htot. reflexivity.
Defined.
